(** * git-lfs-gcs: a custom transfer agent for git-lfs over Google Cloud Storage

    A shallow embedding of [git_lfs_gcs.py] and of its predecessor
    [lfs_gcs.py], and the properties of the transfer protocol they
    implement.

    Modelling decisions, all stated where they are made:
    - decoded JSON is an inductive type; objects are association lists in
      the order of the text, as Python's [dict] keeps them;
    - exceptions are values carrying their class name and [str(e)]; every
      class that occurs derives from [Exception];
    - the local file system and the storage backend are finite maps from
      paths and object URIs to byte strings; the points at which the
      outside world can fail are driven by a schedule of faults carried in
      the state;
    - a generator is run to exhaustion: it produces the list of messages
      it yields, then returns or raises.  The only consumer in the source
      is [for response in ...: respond(response)], which never stops early
      and whose [respond] touches nothing but standard output;
    - standard output is the list of messages written, one per line;
      [json.dumps] and [print] are assumed not to fail, and logging is not
      part of the model;
    - the file descriptors of the process are not part of the state.  The
      protocol gives an upload the [path] of a file, a string; an integer
      there is a descriptor to [open], and one that the process holds (0
      and 1 are the loop's input and output) is outside the model: the
      properties of uploads and of sessions are stated for paths that are
      not one, see [descriptor]. *)

From Stdlib Require Import ZArith Lia Ascii.
From stdpp Require Import base strings pretty gmap list.

Set Warnings "-register-all".
Local Open Scope Z_scope.

(** ** Decoded JSON *)

Abbreviation bytes := (list Byte.byte).

(** What [json.loads] returns.  Numbers are integers: no request of the
    protocol carries a fraction. *)
Inductive json :=
  | JNull
  | JBool (b : bool)
  | JInt (z : Z)
  | JStr (s : string)
  | JList (l : list json)
  | JObj (o : list (string * json)).

Abbreviation dict := (list (string * json)).

(** [d.get(k)] *)
Fixpoint dict_get (k : string) (d : dict) : option json :=
  match d with
  | [] => None
  | (k', v) :: d' => if String.eqb k k' then Some v else dict_get k d'
  end.

(** [del d[k]], the part of [d.pop(k)] that changes [d]. *)
Fixpoint dict_del (k : string) (d : dict) : dict :=
  match d with
  | [] => []
  | (k', v) :: d' =>
      if String.eqb k k' then dict_del k d' else (k', v) :: dict_del k d'
  end.

(** [v == s] for a string literal [s]. *)
Definition eq_str (v : json) (s : string) : bool :=
  match v with
  | JStr s' => String.eqb s' s
  | _ => false
  end.

(** [type(v).__name__] *)
Definition type_name (v : json) : string :=
  match v with
  | JNull => "NoneType"
  | JBool _ => "bool"
  | JInt _ => "int"
  | JStr _ => "str"
  | JList _ => "list"
  | JObj _ => "dict"
  end.

(** ** Exceptions *)

Record exn := Exn { exn_class : string; exn_str : string }.

(** [str(e)] *)
Definition str (e : exn) : string := exn_str e.

Definition quoted (s : string) : string := "'" +:+ s +:+ "'".

Definition KeyError (k : string) : exn := Exn "KeyError" (quoted k).
Definition TypeError (msg : string) : exn := Exn "TypeError" msg.
Definition AttributeError (msg : string) : exn := Exn "AttributeError" msg.
Definition AssertionError : exn := Exn "AssertionError" "".
Definition RuntimeError (msg : string) : exn := Exn "RuntimeError" msg.
Definition JSONDecodeError : exn :=
  Exn "JSONDecodeError" "Expecting value: line 1 column 1 (char 0)".
Definition FileNotFoundError (path : string) : exn :=
  Exn "FileNotFoundError"
      ("[Errno 2] No such file or directory: " +:+ quoted path).
Definition NotFound (uri : string) : exn :=
  Exn "NotFound" ("404 No such object: " +:+ uri).

(** ** The world outside the process *)

(** What does not change while the agent runs.  [git_config] and
    [lfs_config] give the stripped, decoded standard output of
    [git config <option>] and [git config --file .lfsconfig <option>];
    [path_absolute] is [str(Path(p).absolute())] and [abspath] is
    [os.path.abspath]; [inherited_attr] gives, for an attribute that a
    [GCSTransport] inherits from [object], the message of the [TypeError]
    that calling it with the keyword [oid] raises. *)
Record env := Env {
  environ : gmap string string;
  git_config : string → string;
  lfs_config : string → string;
  path_absolute : string → string;
  abspath : string → string;
  inherited_attr : string → option string;
}.

(** What changes: local files, stored objects, objects being written, and
    the schedule of faults.  Each call that reaches outside the process
    (opening, reading, writing, and closing what was written) takes the
    head of the schedule: [Some e] makes that call raise [e]. *)
Record world := World {
  files : gmap string bytes;
  blobs : gmap string bytes;
  staged : gmap string bytes;
  faults : list (option exn);
}.

Definition set_files (f : gmap string bytes → gmap string bytes) (w : world) :=
  World (f (files w)) (blobs w) (staged w) (faults w).
Definition set_blobs (f : gmap string bytes → gmap string bytes) (w : world) :=
  World (files w) (f (blobs w)) (staged w) (faults w).
Definition set_staged (f : gmap string bytes → gmap string bytes) (w : world) :=
  World (files w) (blobs w) (f (staged w)) (faults w).
Definition set_faults (fs : list (option exn)) (w : world) :=
  World (files w) (blobs w) (staged w) fs.

(** ** Computations: messages produced, a result or an exception, a new world *)

Inductive res (A : Type) :=
  | Return (a : A)
  | Raise (e : exn).
Arguments Return {A} a.
Arguments Raise {A} e.

Definition M (A : Type) : Type := world → list dict * res A * world.

#[global] Instance M_ret : MRet M := λ A a w, ([], Return a, w).

#[global] Instance M_bind : MBind M :=
  λ A B k m w,
    match m w with
    | (out, Return a, w1) =>
        match k a w1 with
        | (out', r, w2) => (out ++ out', r, w2)
        end
    | (out, Raise e, w1) => (out, Raise e, w1)
    end.

Definition raise {A} (e : exn) : M A := λ w, ([], Raise e, w).

(** [yield m] in a generator, [print(dumps(m), flush=True)] in the agent. *)
Definition emit (m : dict) : M unit := λ w, ([m], Return tt, w).

Definition modify (f : world → world) : M unit := λ w, ([], Return tt, f w).

Definition gets {A} (f : world → A) : M A := λ w, ([], Return (f w), w).

(** Runs [m] and hands back how it ended. *)
Definition attempt {A} (m : M A) : M (res A) :=
  λ w, match m w with (out, r, w1) => (out, Return r, w1) end.

(** [try: m  except Exception as e: h e] *)
Definition try_except {A} (m : M A) (h : exn → M A) : M A :=
  r ← attempt m;
  match r with
  | Return a => mret a
  | Raise e => h e
  end.

(** [with acquire as r: body r]; [release_ok] is what leaving the block
    does after the body returned, [release_err] after it raised. *)
Definition with_ {R A} (acquire : M R) (release_ok release_err : R → M unit)
    (body : R → M A) : M A :=
  r ← acquire;
  x ← attempt (body r);
  match x with
  | Return a => release_ok r ;; mret a
  | Raise e => release_err r ;; raise e
  end.

(** The next entry of the fault schedule. *)
Definition fault : M unit :=
  λ w,
    match faults w with
    | Some e :: fs => ([], Raise e, set_faults fs w)
    | None :: fs => ([], Return tt, set_faults fs w)
    | [] => ([], Return tt, w)
    end.

(** ** Streams *)

(** A readable stream: what is left to read of an object, or a reader on
    a key that holds nothing, which the backend reports at the first
    read. *)
Inductive reader :=
  | Stream (data : bytes)
  | NoObject (uri : string).

(** A writable stream names where its bytes go. *)
Inductive sink :=
  | FileSink (path : string)
  | BlobSink (uri : string).

(** [stream.read(size)] on what is left: the chunk and the rest. *)
Fixpoint read (size : N) (data : bytes) : bytes * bytes :=
  match data with
  | [] => ([], [])
  | b :: data' =>
      if (size =? 0)%N then ([], data)
      else
        match read (N.pred size) data' with
        | (chunk, rest) => (b :: chunk, rest)
        end
  end.

(** [iter(lambda: src.read(size), b"")]: the chunks that successive reads
    return, up to the first empty one.  Every chunk before it takes at
    least one byte, so [length data] reads are enough
    ([chunks_unfold] states the loop without the counter). *)
Fixpoint iter_read (n : nat) (size : N) (data : bytes) : list bytes :=
  match n with
  | O => []
  | S n' =>
      match read size data with
      | ([], _) => []
      | (chunk, rest) => chunk :: iter_read n' size rest
      end
  end.

Definition chunks (size : N) (data : bytes) : list bytes :=
  iter_read (length data) size data.

(** [dst.write(chunk)] *)
Definition write (dst : sink) (chunk : bytes) : M unit :=
  fault ;;
  match dst with
  | FileSink p => modify (set_files (alter (λ old, old ++ chunk) p))
  | BlobSink u => modify (set_staged (alter (λ old, old ++ chunk) u))
  end.

(** [open(path, "rb")] *)
Definition open_rb (path : string) : M reader :=
  fault ;;
  content ← gets (λ w, files w !! path);
  match content with
  | Some data => mret (Stream data)
  | None => raise (FileNotFoundError path)
  end.

(** [open(path, "wb")]: the file exists and is empty from here on. *)
Definition open_wb (path : string) : M sink :=
  fault ;;
  modify (set_files <[path := []]>) ;;
  mret (FileSink path).

(** Closing a file written without error flushes it, which can fail. *)
Definition close_written (dst : sink) : M unit := fault.

Definition close_quiet {R} (r : R) : M unit := mret tt.

(** [path.unlink()] *)
Definition unlink (path : string) : M unit :=
  content ← gets (λ w, files w !! path);
  match content with
  | Some _ => modify (set_files (delete path))
  | None => raise (FileNotFoundError path)
  end.

(** [Blob.from_uri(uri, client=self.client()).open("rb")]: building the
    client, parsing the URI and opening are one point of failure. *)
Definition blob_open_rb (uri : string) : M reader :=
  fault ;;
  content ← gets (λ w, blobs w !! uri);
  mret (from_option Stream (NoObject uri) content).

(** [Blob.from_uri(uri, client=self.client()).open("wb")] *)
Definition blob_open_wb (uri : string) : M sink :=
  fault ;;
  modify (set_staged <[uri := []]>) ;;
  mret (BlobSink uri).

(** Closing the writer stores the object; the store is the backend's to
    refuse. *)
Definition blob_commit (dst : sink) : M unit :=
  match dst with
  | BlobSink u =>
      data ← gets (λ w, default [] (staged w !! u));
      modify (set_staged (delete u)) ;;
      fault ;;
      modify (set_blobs <[u := data]>)
  | FileSink _ => mret tt
  end.

(** Leaving the block on an exception drops what was written so far. *)
Definition blob_abort (dst : sink) : M unit :=
  match dst with
  | BlobSink u => modify (set_staged (delete u))
  | FileSink _ => mret tt
  end.

(** ** What the two files share *)

Definition MB : Z := 1024 * 1024.
Definition CHUNK_SIZE : Z := 4 * MB.

(** [len(chunk)] *)
Definition len (chunk : bytes) : Z := Z.of_nat (length chunk).

Definition progress (oid : json) (total : Z) (chunk : bytes) : dict :=
  [("event", JStr "progress"); ("oid", oid);
   ("bytesSoFar", JInt total); ("bytesSinceLast", JInt (len chunk))].

(** The body of the [for] loop of [transfer], over the chunks that the
    reads return.  Each read is a call to the outside and can fail, the one
    that returns [b""] included. *)
Fixpoint transfer_loop (oid : json) (dst : sink) (total : Z)
    (cs : list bytes) : M unit :=
  match cs with
  | [] => fault
  | chunk :: cs' =>
      fault ;;
      write dst chunk ;;
      let total := total + len chunk in
      emit (progress oid total chunk) ;;
      transfer_loop oid dst total cs'
  end.

Definition transfer (oid : json) (src : reader) (dst : sink) : M unit :=
  match src with
  | Stream data => transfer_loop oid dst 0 (chunks (Z.to_N CHUNK_SIZE) data)
  | NoObject uri => fault ;; raise (NotFound uri)
  end.

(** [print(dumps(message), flush=True)] *)
Definition respond (message : dict) : M unit := emit message.

(** [config_option]: the first of the two commands that prints something. *)
Definition config_option (E : env) (option : string) : Datatypes.option string :=
  let value := git_config E option in
  if negb (String.eqb value "") then Some value
  else
    let value := lfs_config E option in
    if negb (String.eqb value "") then Some value else None.

(** [os.path.join(a, b)] *)
Fixpoint ends_with_slash (s : string) : bool :=
  match s with
  | EmptyString => false
  | String c EmptyString => Ascii.eqb c "/"%char
  | String _ s' => ends_with_slash s'
  end.

Definition join (a b : string) : string :=
  if String.prefix "/" b then b
  else if String.eqb a "" || ends_with_slash a then a +:+ b
  else a +:+ "/" +:+ b.

(** ** Calling a method with [oid=oid, **request]

    The interpreter goes through the keywords in order and raises at the
    first it cannot place; then it looks for parameters left without a
    value.  Messages are worded as CPython 3.10 and later word them. *)

Definition method (fn : string) : string := "GCSTransport." +:+ fn +:+ "()".

Fixpoint bad_keyword (fn : string) (params : list string) (var_kw : bool)
    (kw : dict) : option exn :=
  match kw with
  | [] => None
  | (k, _) :: kw' =>
      if String.eqb k "self" then
        Some (TypeError (method fn +:+ " got multiple values for argument 'self'"))
      else if existsb (String.eqb k) params || var_kw then
        bad_keyword fn params var_kw kw'
      else
        Some (TypeError
                (method fn +:+ " got an unexpected keyword argument " +:+ quoted k))
  end.

Definition missing (required : list string) (kw : dict) : list string :=
  filter (λ p, dict_get p kw = None) required.

Fixpoint name_list (names : list string) : string :=
  match names with
  | [] => ""
  | [a] => quoted a
  | [a; b] => quoted a +:+ " and " +:+ quoted b
  | a :: rest =>
      quoted a +:+ ", " +:+
      match rest with
      | [b; c] => quoted b +:+ ", and " +:+ quoted c
      | _ => name_list rest
      end
  end.

Definition missing_error (fn : string) (names : list string) : exn :=
  TypeError
    (method fn +:+ " missing " +:+ pretty (length names) +:+ " required positional " +:+
     (if decide (length names = 1%nat) then "argument: " else "arguments: ") +:+
     name_list names).

(** [params] are the parameters after [self] and [oid], [required] those of
    them without a default, [var_kw] whether the method ends in [**_]. *)
Definition bind_keywords (fn : string) (params required : list string)
    (var_kw : bool) (kw : dict) : M unit :=
  match bad_keyword fn params var_kw kw with
  | Some e => raise e
  | None =>
      match missing required kw with
      | [] => mret tt
      | names => raise (missing_error fn names)
      end
  end.

(** The value a parameter is bound to; [None] is its default where it has
    one. *)
Definition argument (k : string) (kw : dict) : json :=
  default JNull (dict_get k kw).

(** What [open] answers to an integer that names no descriptor of the
    process: one that does not fit a C [int] is taken for a path of the
    wrong type, a negative one is refused, and any other is a bad
    descriptor. *)
Definition descriptor_error (fd : Z) : exn :=
  if (fd <? - 2 ^ 31) || (2 ^ 31 <=? fd) then
    TypeError "expected str, bytes or os.PathLike object, not int"
  else if fd <? 0 then Exn "ValueError" "negative file descriptor"
  else Exn "OSError" "[Errno 9] Bad file descriptor".


(** [open(path, "rb")] on a decoded value.  A string names a file; a value
    that is neither a string nor a number is a [TypeError].

    An integer or a boolean names a file descriptor.  The world of this
    model has files and objects, and no table of descriptors: the branch
    below is [open] in a process that holds none, where every descriptor is
    a bad one.  The agent does hold some, 0, 1 and 2 at least: there [open]
    succeeds, the reads are from the agent's own input or fail, and leaving
    the [with] block closes the descriptor under the loop that reads the
    requests and writes the events.  None of this is described here, so
    every property of uploads and of sessions below that depends on how
    [open] ends is stated for requests whose [path] is not a [descriptor]. *)
Definition open_path_rb (path : json) : M reader :=
  match path with
  | JStr p => open_rb p
  | JInt fd => raise (descriptor_error fd)
  | JBool b => raise (descriptor_error (if b then 1 else 0))
  | _ =>
      raise (TypeError ("expected str, bytes or os.PathLike object, not " +:+
                        type_name path))
  end.

Definition join_type_error (v : json) : exn :=
  TypeError ("join() argument must be str, bytes, or os.PathLike object, not " +:+
             quoted (type_name v)).

(** ** Standard input *)

(** A line of standard input, by what [json.loads] makes of it. *)
Inductive text :=
  | NotJson
  | Json (v : json).

Definition loads (line : text) : M json :=
  match line with
  | Json v => mret v
  | NotJson => raise JSONDecodeError
  end.

(** [stdin.readline()]: the empty string at the end of input. *)
Definition readline (stdin : list text) : text :=
  match stdin with
  | [] => NotJson
  | line :: _ => line
  end.

(** [v[k]] *)
Definition getitem (v : json) (k : string) : M json :=
  match v with
  | JObj d =>
      match dict_get k d with
      | Some x => mret x
      | None => raise (KeyError k)
      end
  | JList _ => raise (TypeError "list indices must be integers or slices, not str")
  | JStr _ => raise (TypeError "string indices must be integers, not 'str'")
  | _ => raise (TypeError (quoted (type_name v) +:+ " object is not subscriptable"))
  end.

(** [d.pop(k)] on a dictionary: the value, and [d] without the key. *)
Definition dict_pop (d : dict) (k : string) : M (json * dict) :=
  match dict_get k d with
  | Some x => mret (x, dict_del k d)
  | None => raise (KeyError k)
  end.

(** [v.pop(k)] on what [loads] returned. *)
Definition pop (v : json) (k : string) : M (json * dict) :=
  match v with
  | JObj d => dict_pop d k
  | JList _ => raise (TypeError "'str' object cannot be interpreted as an integer")
  | _ => raise (AttributeError (quoted (type_name v) +:+ " object has no attribute 'pop'"))
  end.

Definition complete_error (oid : json) (e : exn) : dict :=
  [("event", JStr "complete"); ("oid", oid);
   ("error", JObj [("code", JInt 2); ("message", JStr (str e))])].

(** The [try] statement of the loop: every message of the operation is
    written as it comes; an exception ends the operation and is answered by
    one more message. *)
Definition dispatch (call : json → json → dict → M unit)
    (event oid : json) (request : dict) : M unit :=
  try_except (call event oid request) (λ e, respond (complete_error oid e)).

(** The request loop of [agent] and of [main], which leave it by [break]
    and by [return]; nothing follows the loop in either. *)
Fixpoint serve (call : json → json → dict → M unit) (lines : list text) : M unit :=
  match lines with
  | [] => mret tt
  | line :: lines' =>
      request ← loads line;
      '(event, request) ← pop request "event";
      if eq_str event "terminate" then mret tt
      else
        '(oid, request) ← dict_pop request "oid";
        dispatch call event oid request ;;
        serve call lines'
  end.

(** [exit(main())]: status 0 when [main] returns [None], 1 when an
    exception leaves it. *)
Definition exit_status {A} (r : res A) : Z :=
  match r with
  | Return _ => 0
  | Raise _ => 1
  end.

(** [assert b], in an interpreter that runs assertions (no [-O]). *)
Definition assert (b : bool) : M unit :=
  if b then mret tt else raise AssertionError.

(** The first hashing failure of [functools.cache] on the keyword values. *)
Fixpoint unhashable (vs : list json) : option exn :=
  match vs with
  | [] => None
  | (JList _ as v) :: _ | (JObj _ as v) :: _ =>
      Some (TypeError ("unhashable type: " +:+ quoted (type_name v)))
  | _ :: vs' => unhashable vs'
  end.

Definition not_callable (type : string) : exn :=
  TypeError (quoted type +:+ " object is not callable").

Definition unexpected_oid (fn : string) : exn :=
  TypeError (method fn +:+ " got an unexpected keyword argument 'oid'").

Definition no_attribute (name : string) : exn :=
  AttributeError ("'GCSTransport' object has no attribute " +:+ quoted name).

Definition bad_attribute_name (event : json) : exn :=
  TypeError ("attribute name must be string, not " +:+ quoted (type_name event)).

(** Calling the cached [client] method with keywords. *)
Definition call_client (oid : json) (request : dict) : exn :=
  default (unexpected_oid "client") (unhashable (oid :: request.*2)).

(** ** git_lfs_gcs.py *)

Module GitLfsGcs.

Record GCSTransport := { url : string }.

Definition create (E : env) : M GCSTransport :=
  match config_option E "lfs.url" with
  | Some url => mret {| url := url |}
  | None => raise (RuntimeError "LFS url must be set")
  end.

(** The context manager [open_auto_cleanup], with the block it guards:
    whatever is raised while the file is being opened, written or closed
    is answered by [unlink] and raised again. *)
Definition open_auto_cleanup {A} (file_path : string) (body : sink → M A) : M A :=
  try_except
    (with_ (open_wb file_path) close_written close_quiet body)
    (λ e, unlink file_path ;; raise e).

(** [join] raises before anything else is done unless [oid] is a
    string, so the name of the file is built from a string. *)
Definition download (E : env) (self : GCSTransport) (oid size action : json) : M unit :=
  match oid with
  | JStr name =>
      let file_uri := join (url self) name in
      let download_path := path_absolute E ("lfs-download-" +:+ name +:+ ".tmp") in
      with_ (blob_open_rb file_uri) close_quiet close_quiet
        (λ src, open_auto_cleanup download_path (λ dst, transfer oid src dst)) ;;
      emit [("event", JStr "complete"); ("oid", oid); ("path", JStr download_path)]
  | _ => raise (join_type_error oid)
  end.

Definition upload (self : GCSTransport) (oid path size action : json) : M unit :=
  match oid with
  | JStr name =>
      let file_uri := join (url self) name in
      with_ (open_path_rb path) close_quiet close_quiet
        (λ src,
           with_ (blob_open_wb file_uri) blob_commit blob_abort
             (λ dst, transfer oid src dst)) ;;
      emit [("event", JStr "complete"); ("oid", oid)]
  | _ => raise (join_type_error oid)
  end.

(** [getattr(client, event)(oid=oid, **request)] *)
Definition call (E : env) (client : GCSTransport) (event oid : json)
    (request : dict) : M unit :=
  match event with
  | JStr name =>
      if String.eqb name "download" then
        bind_keywords "download" ["size"; "action"] ["size"] false request ;;
        download E client oid (argument "size" request) (argument "action" request)
      else if String.eqb name "upload" then
        bind_keywords "upload" ["path"; "size"; "action"] ["path"; "size"] false request ;;
        upload client oid (argument "path" request) (argument "size" request)
               (argument "action" request)
      else if String.eqb name "url" then raise (not_callable "str")
      else if String.eqb name "client" then raise (call_client oid request)
      else if String.eqb name "create" || String.eqb name "__init__" then
        raise (unexpected_oid name)
      else
        match inherited_attr E name with
        | Some msg => raise (TypeError msg)
        | None => raise (no_attribute name)
        end
  | _ => raise (bad_attribute_name event)
  end.

Definition agent (E : env) (stdin : list text) : M unit :=
  match environ E !! "GIT_LFS_GCS_LOG" with
  | Some _ =>
      match environ E !! "LFS_GCS_LOG" with
      | Some _ => mret tt
      | None => raise (KeyError "LFS_GCS_LOG")
      end
  | None => mret tt
  end ;;
  first_request ← loads (readline stdin);
  event ← getitem first_request "event";
  assert (eq_str event "init") ;;
  client ← create E;
  respond [] ;;
  serve (call E client) (tail stdin).

(** [main] without the [install] subcommand. *)
Definition main (E : env) (stdin : list text) : M unit := agent E stdin.

End GitLfsGcs.

(** ** lfs_gcs.py *)

Module LfsGcs.

Record GCSTransport := { url : string; project : option string }.

Definition create (E : env) : M GCSTransport :=
  let url := config_option E "lfs.url" in
  let project := config_option E "lfs-gcs.project" in
  match url with
  | Some url => mret {| url := url; project := project |}
  | None => raise (RuntimeError "LFS url must be set")
  end.

Definition download (E : env) (self : GCSTransport) (oid : json) : M unit :=
  match oid with
  | JStr name =>
      let file_uri := join (url self) name in
      let download_path := abspath E ("lfs-download-" +:+ name +:+ ".tmp") in
      with_ (blob_open_rb file_uri) close_quiet close_quiet
        (λ src,
           with_ (open_wb download_path) close_written close_quiet
             (λ dst, transfer oid src dst)) ;;
      emit [("event", JStr "complete"); ("oid", oid); ("path", JStr download_path)]
  | _ => raise (join_type_error oid)
  end.

Definition upload (self : GCSTransport) (oid path size action : json) : M unit :=
  match oid with
  | JStr name =>
      let file_uri := join (url self) name in
      with_ (open_path_rb path) close_quiet close_quiet
        (λ src,
           with_ (blob_open_wb file_uri) blob_commit blob_abort
             (λ dst, transfer oid src dst)) ;;
      emit [("event", JStr "complete"); ("oid", oid)]
  | _ => raise (join_type_error oid)
  end.

(** [getattr(client, event)(oid=oid, **request)] *)
Definition call (E : env) (client : GCSTransport) (event oid : json)
    (request : dict) : M unit :=
  match event with
  | JStr name =>
      if String.eqb name "download" then
        bind_keywords "download" [] [] true request ;;
        download E client oid
      else if String.eqb name "upload" then
        bind_keywords "upload" ["path"; "size"; "action"] ["path"; "size"; "action"]
                      false request ;;
        upload client oid (argument "path" request) (argument "size" request)
               (argument "action" request)
      else if String.eqb name "url" then raise (not_callable "str")
      else if String.eqb name "project" then
        raise (not_callable (match project client with
                             | Some _ => "str"
                             | None => "NoneType"
                             end))
      else if String.eqb name "client" then raise (call_client oid request)
      else if String.eqb name "create" || String.eqb name "__init__" then
        raise (unexpected_oid name)
      else
        match inherited_attr E name with
        | Some msg => raise (TypeError msg)
        | None => raise (no_attribute name)
        end
  | _ => raise (bad_attribute_name event)
  end.

(** Setting up the log, which is all that [LFS_GCS_LOG] decides, is not
    part of the model. *)
Definition main (E : env) (stdin : list text) : M unit :=
  first_message ← loads (readline stdin);
  event ← getitem first_message "event";
  assert (eq_str event "init") ;;
  client ← create E;
  emit [] ;;
  serve (call E client) (tail stdin).

End LfsGcs.

(** ** Reading the output *)

Definition is_event (name : string) (m : dict) : bool :=
  match dict_get "event" m with
  | Some v => eq_str v name
  | None => false
  end.

Definition is_complete : dict → bool := is_event "complete".
Definition is_progress : dict → bool := is_event "progress".


(** ** A session to try things on *)

Definition E0 : env :=
  {| environ := ∅;
     git_config := λ option, if String.eqb option "lfs.url" then "gs://bucket/lfs" else "";
     lfs_config := λ _, "";
     path_absolute := λ p, "/repo/" +:+ p;
     abspath := λ p, "/repo/" +:+ p;
     inherited_attr := λ _, None |}.

(** [b"xyz"] *)
Definition xyz : bytes := [Byte.x78; Byte.x79; Byte.x7a].

Definition w0 : world :=
  {| files := {[ "/repo/big.bin" := xyz ]};
     blobs := {[ "gs://bucket/lfs/abc" := xyz ]};
     staged := ∅;
     faults := [] |}.

Definition init : text := Json (JObj [("event", JStr "init")]).
Definition terminate : text := Json (JObj [("event", JStr "terminate")]).
Definition download_abc : text :=
  Json (JObj [("event", JStr "download"); ("oid", JStr "abc"); ("size", JInt 3)]).

(** ** The vocabulary of the properties *)

(** The messages of a transfer that went through. *)
Fixpoint progress_events (oid : json) (total : Z) (cs : list bytes) : list dict :=
  match cs with
  | [] => []
  | chunk :: cs' =>
      progress oid (total + len chunk) chunk ::
      progress_events oid (total + len chunk) cs'
  end.

(** The messages [out], then whatever [x] stands for. *)
Definition prepend {A} (out : list dict) (x : list dict * res A * world) :
    list dict * res A * world :=
  match x with
  | (out', r, w) => (out ++ out', r, w)
  end.

Definition emits {A} (P : dict → Prop) (m : M A) : Prop :=
  ∀ w out r w', m w = (out, r, w') → Forall P out.

Definition progressing (m : dict) : Prop := is_progress m = true.



(** The [call] of either file. *)
Inductive agent_call (E : env) : (json → json → dict → M unit) → Prop :=
  | git_call client : agent_call E (GitLfsGcs.call E client)
  | lfs_call client : agent_call E (LfsGcs.call E client).


(** Whether a line is an object whose [event] is ["init"]. *)
Definition init_event (line : text) : bool :=
  match line with
  | Json (JObj d) =>
      match dict_get "event" d with
      | Some event => eq_str event "init"
      | None => false
      end
  | _ => false
  end.

(** What lets [agent] get to its acknowledgement: a log variable that can
    be read if the other one is set, an [init] line, and a URL. *)
Definition handshake (E : env) (first : text) (url : string) : Prop :=
  (is_Some (environ E !! "GIT_LFS_GCS_LOG") → is_Some (environ E !! "LFS_GCS_LOG")) ∧
  init_event first = true ∧
  config_option E "lfs.url" = Some url.

(** The world after [data] went to [dst]. *)
Definition written (dst : sink) (data : bytes) (w : world) : world :=
  match dst with
  | FileSink p => set_files (alter (λ old, old ++ data) p) w
  | BlobSink u => set_staged (alter (λ old, old ++ data) u) w
  end.

Definition complete_download (oid : json) (path : string) : dict :=
  [("event", JStr "complete"); ("oid", oid); ("path", JStr path)].

Definition complete_upload (oid : json) : dict :=
  [("event", JStr "complete"); ("oid", oid)].

(** The name of the temporary file of [git_lfs_gcs.py]. *)
Definition download_path (E : env) (name : string) : string :=
  path_absolute E ("lfs-download-" +:+ name +:+ ".tmp").


Definition client0 : GitLfsGcs.GCSTransport := {| GitLfsGcs.url := "gs://bucket/lfs" |}.


(** An event that is none of the three the loop knows. *)
Definition other_event (event : json) : Prop :=
  eq_str event "terminate" = false ∧ eq_str event "upload" = false ∧
  eq_str event "download" = false.

(** The names that a [GCSTransport] of either file defines besides
    [upload] and [download]. *)
Definition attributes : list string := ["url"; "project"; "client"; "create"; "__init__"].

Definition read_error : exn := Exn "ServiceUnavailable" "503 GET gs://bucket/lfs/abc".

(** The backend stream and the temporary file open; the first read fails. *)
Definition w_read_fails : world := set_faults [None; None; Some read_error] w0.

Definition download_abc_comment : text :=
  Json (JObj [("event", JStr "download"); ("oid", JStr "abc"); ("size", JInt 3);
              ("comment", JStr "nightly")]).

(** ** More vocabulary: stores, sessions *)

(** The part of the world that holds data; the fault schedule is the
    rest. *)
Definition store (w : world) : gmap string bytes * gmap string bytes * gmap string bytes :=
  (files w, blobs w, staged w).

(** An integer field of a message. *)
Definition int_field (k : string) (m : dict) : Z :=
  match dict_get k m with
  | Some (JInt z) => z
  | _ => 0
  end.

Definition sum (zs : list Z) : Z := foldr Z.add 0 zs.




(** The loop refuses a request: whatever the state, the call with these
    keywords is answered by one [complete] event whose error is a
    [TypeError], nothing else is written or changed, and the loop goes on
    with the lines that follow. *)
Definition refuses (call : json → json → dict → M unit) (event : string) (oid : json)
    (request : dict) : Prop :=
  ∃ e, exn_class e = "TypeError"
       ∧ (∀ w, dispatch call (JStr event) oid request w
               = ([complete_error oid e], Return tt, w))
       ∧ (∀ d lines w,
            dict_get "event" d = Some (JStr event) → dict_get "oid" d = Some oid →
            dict_del "oid" (dict_del "event" d) = request →
            serve call (Json (JObj d) :: lines) w
            = prepend [complete_error oid e] (serve call lines w)).

(** A download that carries a [path], which only an upload declares. *)
Definition download_abc_path : dict :=
  [("event", JStr "download"); ("path", JStr "/repo/big.bin"); ("oid", JStr "abc");
   ("size", JInt 3)].

(** A message of an operation. *)
Definition transfer_event (m : dict) : Prop :=
  is_progress m = true ∨ is_complete m = true.

(** ** The [install] subcommand *)

Abbreviation command := (list string).

(** [check_call(cmd)] for each command in turn: the commands run, the last
    of them being the one that failed if one did, and the exception it
    raised.  [outcome] is what the outside makes of a command: [None] for
    exit status 0, or the exception that [check_call] raises. *)
Fixpoint check_calls (outcome : command → option exn) (cmds : list command) :
    list command * res unit :=
  match cmds with
  | [] => ([], Return tt)
  | cmd :: cmds' =>
      match outcome cmd with
      | Some e => ([cmd], Raise e)
      | None =>
          match check_calls outcome cmds' with
          | (ran, r) => (cmd :: ran, r)
          end
      end
  end.

(** The three commands of [install], [argv0] being [argv[0]]. *)
Definition install_commands (argv0 : string) (is_local : bool) : list command :=
  let lfs_install := ["git"; "lfs"; "install"] ++ (if is_local then ["--local"] else []) in
  let git_config := ["git"; "config"] ++ (if is_local then [] else ["--global"]) in
  [lfs_install;
   git_config ++ ["lfs.standalonetransferagent"; "git-lfs-gcs"];
   git_config ++ ["lfs.customtransfer.git-lfs-gcs.path"; argv0]].

(** [install]: the commands run, the lines printed, and how it ended. *)
Definition install (outcome : command → option exn) (argv0 : string) (is_local : bool) :
    list command * list string * res unit :=
  match check_calls outcome (install_commands argv0 is_local) with
  | (ran, Return _) => (ran, ["Git LFS GCS transport initialized."], Return tt)
  | (ran, Raise e) => (ran, [], Raise e)
  end.

(** * Properties *)

Example scenario_download :
  let '(out, r, w) := GitLfsGcs.main E0 [init; download_abc] w0 in
  out = [[];
         [("event", JStr "progress"); ("oid", JStr "abc");
          ("bytesSoFar", JInt 3); ("bytesSinceLast", JInt 3)];
         [("event", JStr "complete"); ("oid", JStr "abc");
          ("path", JStr "/repo/lfs-download-abc.tmp")]]
  ∧ exit_status r = 0
  ∧ files w !! "/repo/lfs-download-abc.tmp" = Some xyz.
Proof. vm_compute. done. Qed.

(** ** Reading in chunks *)

Lemma read_app size data chunk rest :
  read size data = (chunk, rest) → chunk ++ rest = data.
Proof.
  revert size chunk rest.
  induction data as [|b data IH]; intros size chunk rest; simpl.
  - by intros [= <- <-].
  - destruct (size =? 0)%N; [by intros [= <- <-]|].
    destruct (read (N.pred size) data) as [c r] eqn:Hread.
    intros [= <- <-]. simpl. f_equal. by eapply IH.
Qed.

Lemma read_len size data chunk rest :
  read size data = (chunk, rest) → len chunk = Z.min (Z.of_N size) (len data).
Proof.
  unfold len. revert size chunk rest.
  induction data as [|b data IH]; intros size chunk rest; simpl.
  - intros [= <- <-]. simpl. lia.
  - destruct (N.eqb_spec size 0) as [->|Hsize]; [intros [= <- <-]; simpl; lia|].
    destruct (read (N.pred size) data) as [c r] eqn:Hread.
    intros [= <- <-]. apply IH in Hread. simpl length. lia.
Qed.

Lemma read_empty size data rest :
  read size data = ([], rest) → size = 0%N ∨ data = [].
Proof.
  intros Hread. apply read_len in Hread. unfold len in Hread. simpl in Hread.
  destruct data; [by right|]. left. simpl length in Hread. lia.
Qed.

Lemma iter_read_enough n1 n2 size data :
  (length data ≤ n1)%nat → (length data ≤ n2)%nat →
  iter_read n1 size data = iter_read n2 size data.
Proof.
  revert n2 data. induction n1 as [|n1 IH]; intros n2 data H1 H2.
  - destruct data; [|simpl in H1; lia]. by destruct n2.
  - destruct n2 as [|n2].
    + destruct data; [done|simpl in H2; lia].
    + simpl. destruct (read size data) as [chunk rest] eqn:Hread.
      destruct chunk as [|b chunk]; [done|].
      f_equal. apply read_app in Hread. subst data.
      rewrite length_app in H1, H2. simpl in H1, H2. apply IH; lia.
Qed.

(** The loop that [chunks] stands for: read, stop at the empty chunk, go on
    with the rest. *)
Lemma chunks_unfold size data :
  chunks size data =
    match read size data with
    | ([], _) => []
    | (chunk, rest) => chunk :: chunks size rest
    end.
Proof.
  unfold chunks. destruct data as [|b data]; [done|].
  change (length (b :: data)) with (S (length data)).
  cbn [iter_read]. destruct (read size (b :: data)) as [chunk rest] eqn:Hread.
  destruct chunk as [|c chunk]; [done|].
  f_equal. apply iter_read_enough; [|done].
  apply read_app in Hread. apply (f_equal length) in Hread.
  rewrite length_app in Hread. simpl in Hread. lia.
Qed.

Lemma chunks_concat size data :
  size ≠ 0%N → concat (chunks size data) = data.
Proof.
  intros Hsize. remember (length data) as n eqn:Hn. revert data Hn.
  induction n as [n IH] using lt_wf_ind. intros data Hn.
  rewrite chunks_unfold. destruct (read size data) as [chunk rest] eqn:Hread.
  destruct chunk as [|c chunk].
  - apply read_empty in Hread as [?|?]; [done|by subst].
  - pose proof (read_app _ _ _ _ Hread) as Happ. simpl.
    rewrite (IH (length rest)); [done| |done].
    subst. rewrite length_app. simpl. lia.
Qed.

(** [ceil(N / size)] reads return a chunk. *)
Lemma chunks_count size data :
  0 < size →
  Z.of_nat (length (chunks (Z.to_N size) data)) = (len data + size - 1) / size.
Proof.
  intros Hsize. remember (length data) as n eqn:Hn. revert data Hn.
  induction n as [n IH] using lt_wf_ind. intros data Hn.
  rewrite chunks_unfold.
  destruct (read (Z.to_N size) data) as [chunk rest] eqn:Hread.
  pose proof (read_app _ _ _ _ Hread) as Happ.
  pose proof (read_len _ _ _ _ Hread) as Hlen.
  rewrite Z2N.id in Hlen by lia.
  assert (len data = len chunk + len rest) as Hsum.
  { subst data. unfold len. rewrite length_app. lia. }
  destruct chunk as [|c chunk].
  - apply read_empty in Hread as [?|?]; [lia|]. subst data.
    simpl. symmetry. apply Z.div_small. unfold len. simpl. lia.
  - cbn [length]. rewrite Nat2Z.inj_succ.
    rewrite (IH (length rest)); [| |done].
    + assert (0 < len (c :: chunk)) by (unfold len; simpl; lia).
      destruct (Z.min_spec size (len data)) as [[? Hmin]|[? Hmin]];
        rewrite Hmin in Hlen.
      * replace (len data + size - 1) with (len rest + size - 1 + 1 * size) by lia.
        rewrite Z.div_add by lia. lia.
      * assert (len rest = 0) as -> by lia.
        rewrite (Z.div_small (0 + size - 1)) by lia.
        apply (Z.div_unique _ _ _ (len data - 1)); lia.
    + subst data n. rewrite length_app. simpl. lia.
Qed.

Lemma progress_events_length oid total cs :
  length (progress_events oid total cs) = length cs.
Proof. revert total. induction cs; intros; simpl; auto. Qed.

Lemma progress_events_progress oid total cs :
  Forall (λ m, is_progress m = true) (progress_events oid total cs).
Proof. revert total. induction cs; intros; simpl; constructor; auto. Qed.

Lemma progress_events_last oid total cs m :
  last (progress_events oid total cs) = Some m →
  dict_get "bytesSoFar" m = Some (JInt (total + len (concat cs))).
Proof.
  revert total. induction cs as [|chunk cs IH]; intros total; [done|].
  simpl. destruct cs as [|chunk' cs].
  - simpl. intros [= <-]. simpl. rewrite app_nil_r. done.
  - intros Hlast. apply IH in Hlast. rewrite Hlast. do 2 f_equal.
    unfold len. rewrite !length_app. simpl concat. rewrite !length_app. lia.
Qed.

(** What each event adds sums to what the last one reports. *)
Lemma progress_events_since_last oid total cs :
  Forall2 (λ m chunk, dict_get "bytesSinceLast" m = Some (JInt (len chunk)))
          (progress_events oid total cs) cs.
Proof. revert total. induction cs; intros; simpl; constructor; auto. Qed.

(** ** Running computations *)

Lemma prepend_nil {A} (x : list dict * res A * world) : prepend [] x = x.
Proof. by destruct x as [[??]?]. Qed.


Lemma bind_return {A B} (m : M A) (k : A → M B) w out a w1 :
  m w = (out, Return a, w1) → (m ≫= k) w = prepend out (k a w1).
Proof. unfold mbind, M_bind, prepend. by intros ->. Qed.

Lemma bind_raise {A B} (m : M A) (k : A → M B) w out e w1 :
  m w = (out, Raise e, w1) → (m ≫= k) w = (out, Raise e, w1).
Proof. unfold mbind, M_bind. by intros ->. Qed.

Lemma bind_inv {A B} (m : M A) (k : A → M B) w out r w' :
  (m ≫= k) w = (out, r, w') →
  (∃ e, m w = (out, Raise e, w') ∧ r = Raise e) ∨
  (∃ out1 a w1 out2,
      m w = (out1, Return a, w1) ∧ k a w1 = (out2, r, w') ∧ out = out1 ++ out2).
Proof.
  unfold mbind, M_bind. destruct (m w) as [[out1 [a|e]] w1].
  - destruct (k a w1) as [[out2 r2] w2] eqn:Hk. intros [= <- <- <-].
    right. by exists out1, a, w1, out2.
  - intros [= <- <- <-]. left. by exists e.
Qed.

Lemma try_except_return {A} (m : M A) h w out a w1 :
  m w = (out, Return a, w1) → try_except m h w = (out, Return a, w1).
Proof.
  intros Hm. unfold try_except, attempt, mbind, M_bind, mret, M_ret.
  rewrite Hm. by rewrite app_nil_r.
Qed.

Lemma try_except_raise {A} (m : M A) h w out e w1 :
  m w = (out, Raise e, w1) → try_except m h w = prepend out (h e w1).
Proof.
  intros Hm. unfold try_except, attempt, mbind, M_bind. by rewrite Hm.
Qed.

Lemma fault_none w : faults w = [] → fault w = ([], Return tt, w).
Proof. unfold fault. by intros ->. Qed.

(** ** What computations write *)

Section emits.
Context (P : dict → Prop).

Lemma emits_ret {A} (a : A) : emits P (mret a).
Proof. intros w out r w' [= <- <- <-]. constructor. Qed.

Lemma emits_raise {A} e : emits P (raise (A := A) e).
Proof. intros w out r w' [= <- <- <-]. constructor. Qed.

Lemma emits_modify f : emits P (modify f).
Proof. intros w out r w' [= <- <- <-]. constructor. Qed.

Lemma emits_gets {A} (f : world → A) : emits P (gets f).
Proof. intros w out r w' [= <- <- <-]. constructor. Qed.

Lemma emits_fault : emits P fault.
Proof.
  intros w out r w'. unfold fault.
  destruct (faults w) as [|[e|] fs]; intros [= <- <- <-]; constructor.
Qed.

Lemma emits_emit m : P m → emits P (emit m).
Proof. intros Hm w out r w' [= <- <- <-]. by repeat constructor. Qed.

Lemma emits_bind {A B} (m : M A) (k : A → M B) :
  emits P m → (∀ a, emits P (k a)) → emits P (m ≫= k).
Proof.
  intros Hm Hk w out r w' Hrun.
  apply bind_inv in Hrun as [(e & Hrun & _)|(out1 & a & w1 & out2 & H1 & H2 & ->)].
  - by eapply Hm.
  - apply Forall_app. split; [by eapply Hm|by eapply Hk].
Qed.

Lemma emits_attempt {A} (m : M A) : emits P m → emits P (attempt m).
Proof.
  intros Hm w out r w'. unfold attempt.
  destruct (m w) as [[out1 r1] w1] eqn:Hrun. intros [= <- <- <-]. by eapply Hm.
Qed.

Lemma emits_try_except {A} (m : M A) h :
  emits P m → (∀ e, emits P (h e)) → emits P (try_except m h).
Proof.
  intros Hm Hh. apply emits_bind; [by apply emits_attempt|].
  intros [a|e]; [apply emits_ret|apply Hh].
Qed.

Lemma emits_with {R A} (acquire : M R) ok err (body : R → M A) :
  emits P acquire → (∀ r, emits P (ok r)) → (∀ r, emits P (err r)) →
  (∀ r, emits P (body r)) → emits P (with_ acquire ok err body).
Proof.
  intros Ha Hok Herr Hbody. apply emits_bind; [done|]. intros r.
  apply emits_bind; [by apply emits_attempt|].
  intros [a|e]; (apply emits_bind; [done|]); intros _;
    [apply emits_ret|apply emits_raise].
Qed.
End emits.

Ltac emits :=
  repeat first
    [ progress intros
    | apply emits_ret | apply emits_raise | apply emits_modify
    | apply emits_gets | apply emits_fault | apply emits_bind
    | apply emits_try_except | apply emits_with | apply emits_attempt
    | match goal with |- emits _ (match ?x with _ => _ end) => destruct x end ].

Lemma emits_write P dst chunk : emits P (write dst chunk).
Proof. unfold write. emits. Qed.

Lemma emits_open_rb P path : emits P (open_rb path).
Proof. unfold open_rb. emits. Qed.

Lemma emits_open_wb P path : emits P (open_wb path).
Proof. unfold open_wb. emits. Qed.

Lemma emits_unlink P path : emits P (unlink path).
Proof. unfold unlink. emits. Qed.

Lemma emits_blob_open_rb P uri : emits P (blob_open_rb uri).
Proof. unfold blob_open_rb. emits. Qed.

Lemma emits_blob_open_wb P uri : emits P (blob_open_wb uri).
Proof. unfold blob_open_wb. emits. Qed.

Lemma emits_blob_commit P dst : emits P (blob_commit dst).
Proof. unfold blob_commit. emits. Qed.

Lemma emits_blob_abort P dst : emits P (blob_abort dst).
Proof. unfold blob_abort. emits. Qed.

Lemma emits_open_path_rb P path : emits P (open_path_rb path).
Proof. unfold open_path_rb. destruct path; first [apply emits_open_rb|emits]. Qed.

Lemma emits_bind_keywords P fn params required var_kw kw :
  emits P (bind_keywords fn params required var_kw kw).
Proof. unfold bind_keywords. emits. Qed.



(** ** One [complete] event per operation *)
















(** ** The [try] statement and the loop *)


Lemma dispatch_raise call event oid request w out e w1 :
  call event oid request w = (out, Raise e, w1) →
  dispatch call event oid request w = (out ++ [complete_error oid e], Return tt, w1).
Proof. intros Hcall. unfold dispatch. by rewrite (try_except_raise _ _ _ _ _ _ Hcall). Qed.

Lemma complete_error_complete oid e : is_complete (complete_error oid e) = true.
Proof. done. Qed.


Lemma dict_get_del_ne k k' d : k ≠ k' → dict_get k (dict_del k' d) = dict_get k d.
Proof.
  intros Hne. induction d as [|[k0 v] d IH]; [done|]. simpl.
  destruct (String.eqb_spec k' k0) as [->|?].
  - rewrite IH. destruct (String.eqb_spec k k0); [done|done].
  - simpl. by rewrite IH.
Qed.

(** A request that is not [terminate] and has an [oid]: its messages, then
    the rest of the input. *)
Lemma serve_request call d event oid lines w out w1 :
  dict_get "event" d = Some event → eq_str event "terminate" = false →
  dict_get "oid" d = Some oid →
  dispatch call event oid (dict_del "oid" (dict_del "event" d)) w = (out, Return tt, w1) →
  serve call (Json (JObj d) :: lines) w = prepend out (serve call lines w1).
Proof.
  intros Hevent Hterm Hoid Hdispatch.
  assert (dict_get "oid" (dict_del "event" d) = Some oid) as Hoid'
    by (by rewrite dict_get_del_ne).
  cbn [serve].
  erewrite bind_return by reflexivity.
  erewrite bind_return by (cbn [pop]; unfold dict_pop; rewrite Hevent; reflexivity).
  cbn beta iota. rewrite Hterm, !prepend_nil.
  erewrite bind_return by (unfold dict_pop; rewrite Hoid'; reflexivity).
  cbn beta iota. rewrite prepend_nil. by erewrite bind_return.
Qed.






(** ** The handshake *)

Lemma git_main_handshake E first url lines w :
  handshake E first url →
  GitLfsGcs.main E (first :: lines) w
  = prepend [[]] (serve (GitLfsGcs.call E {| GitLfsGcs.url := url |}) lines w).
Proof.
  intros (Hlog & Hinit & Hurl). unfold GitLfsGcs.main, GitLfsGcs.agent.
  erewrite bind_return; last first.
  { destruct (environ E !! "GIT_LFS_GCS_LOG"); [|done].
    destruct Hlog as [? ->]; done. }
  destruct first as [|[| | | | |d]]; try done. simpl in Hinit.
  destruct (dict_get "event" d) as [event|] eqn:Hevent; [|done].
  erewrite bind_return by reflexivity.
  erewrite bind_return by (cbn [getitem]; rewrite Hevent; reflexivity).
  erewrite bind_return by (rewrite Hinit; reflexivity).
  erewrite bind_return by (unfold GitLfsGcs.create; rewrite Hurl; reflexivity).
  erewrite bind_return by reflexivity.
  rewrite !prepend_nil. done.
Qed.

Lemma git_main_bad_handshake E stdin w :
  init_event (readline stdin) = false ∨ config_option E "lfs.url" = None →
  ∃ e, GitLfsGcs.main E stdin w = ([], Raise e, w).
Proof.
  intros Hbad. unfold GitLfsGcs.main, GitLfsGcs.agent.
  destruct (environ E !! "GIT_LFS_GCS_LOG") as [?|];
    [destruct (environ E !! "LFS_GCS_LOG") as [?|]; [|by eexists]|];
    (erewrite bind_return by reflexivity; rewrite prepend_nil).
  all: destruct (readline stdin) as [|v]; [by eexists|];
    erewrite bind_return by reflexivity; rewrite prepend_nil.
  all: destruct v as [| | | | |d]; try by eexists.
  all: cbn [getitem init_event] in *;
    destruct (dict_get "event" d) as [event|]; [|by eexists].
  all: erewrite bind_return by reflexivity; rewrite prepend_nil.
  all: destruct (eq_str event "init"); [|by eexists].
  all: erewrite bind_return by reflexivity; rewrite prepend_nil.
  all: destruct Hbad as [?|Hurl]; [done|].
  all: unfold GitLfsGcs.create; rewrite Hurl; by eexists.
Qed.

(** ** Transfers that nothing interrupts *)

Lemma written_faults dst data w : faults (written dst data w) = faults w.
Proof. by destruct dst. Qed.

Lemma written_nil dst w : written dst [] w = w.
Proof.
  destruct w, dst; unfold written, set_files, set_staged; simpl; f_equal;
    apply alter_id; intros; apply app_nil_r.
Qed.

Lemma written_written dst a b w :
  written dst b (written dst a w) = written dst (a ++ b) w.
Proof.
  destruct w, dst; unfold written, set_files, set_staged; simpl; f_equal;
    rewrite alter_alter_eq; apply alter_ext; intros; simpl; by rewrite app_assoc.
Qed.

Lemma write_ok dst chunk w :
  faults w = [] → write dst chunk w = ([], Return tt, written dst chunk w).
Proof.
  intros Hw. unfold write. erewrite bind_return by by apply fault_none.
  by destruct dst.
Qed.

Lemma transfer_loop_ok oid dst total cs w :
  faults w = [] →
  transfer_loop oid dst total cs w
  = (progress_events oid total cs, Return tt, written dst (concat cs) w).
Proof.
  revert total w. induction cs as [|chunk cs IH]; intros total w Hw.
  - simpl. rewrite written_nil. by apply fault_none.
  - cbn [transfer_loop progress_events concat].
    erewrite bind_return by by apply fault_none.
    erewrite bind_return by by apply write_ok.
    erewrite bind_return by reflexivity.
    rewrite IH by by rewrite written_faults.
    by rewrite written_written.
Qed.

(** A transfer that returns has written every event of the list. *)
Lemma transfer_loop_return oid dst total cs w out w' :
  transfer_loop oid dst total cs w = (out, Return tt, w') →
  out = progress_events oid total cs.
Proof.
  revert total w out. induction cs as [|chunk cs IH]; intros total w out; simpl.
  - unfold fault. by destruct (faults w) as [|[e|] fs]; intros [= <- <-].
  - intros Hrun.
    apply bind_inv in Hrun as [(e & _ & [=])|(o1 & [] & w1 & o1' & H1 & Hrun & ->)].
    apply bind_inv in Hrun as [(e & _ & [=])|(o2 & [] & w2 & o2' & H2 & Hrun & ->)].
    apply bind_inv in Hrun as [(e & _ & [=])|(o3 & [] & w3 & o3' & H3 & Hrun & ->)].
    apply IH in Hrun as ->. injection H3 as <- <-.
    apply (emits_fault (λ _, False)) in H1. apply (emits_write (λ _, False)) in H2.
    destruct o1 as [|? ?]; [|by inversion H1]. destruct o2 as [|? ?]; [|by inversion H2].
    done.
Qed.

Lemma with_return {R A} (acquire : M R) ok err (body : R → M A) w o1 r w1 o2 a w2 o3 w3 :
  acquire w = (o1, Return r, w1) → body r w1 = (o2, Return a, w2) →
  ok r w2 = (o3, Return tt, w3) →
  with_ acquire ok err body w = (o1 ++ o2 ++ o3, Return a, w3).
Proof.
  intros Ha Hb Hok. unfold with_. erewrite bind_return by done.
  erewrite bind_return by (unfold attempt; rewrite Hb; reflexivity).
  cbn iota. erewrite bind_return by done. simpl. by rewrite !app_nil_r.
Qed.


Lemma git_download_ok E self name size action data w :
  faults w = [] → blobs w !! join (GitLfsGcs.url self) name = Some data →
  ∃ w',
    GitLfsGcs.download E self (JStr name) size action w
    = (progress_events (JStr name) 0 (chunks (Z.to_N CHUNK_SIZE) data)
         ++ [complete_download (JStr name) (download_path E name)],
       Return tt, w')
    ∧ files w' !! download_path E name = Some data
    ∧ faults w' = [].
Proof.
  intros Hw Hblob. unfold GitLfsGcs.download, GitLfsGcs.open_auto_cleanup.
  fold (download_path E name). set (p := download_path E name).
  set (cs := chunks (Z.to_N CHUNK_SIZE) data).
  set (w1 := set_files <[p := []]> w).
  exists (written (FileSink p) (concat cs) w1). split_and!.
  - erewrite bind_return; [reflexivity|].
    rewrite <- (app_nil_r (progress_events _ _ _)).
    eapply (with_return _ _ _ _ _ []); [| |reflexivity].
    + unfold blob_open_rb. erewrite bind_return by by apply fault_none.
      erewrite bind_return by reflexivity. by rewrite Hblob.
    + simpl. rewrite <- (app_nil_r (progress_events _ _ _)).
      apply try_except_return.
      eapply (with_return _ _ _ _ _ [] _ w1).
      * unfold open_wb. erewrite bind_return by by apply fault_none.
        erewrite bind_return by reflexivity. reflexivity.
      * by apply transfer_loop_ok.
      * by apply fault_none.
  - simpl. rewrite lookup_alter_eq, lookup_insert_eq. simpl.
    f_equal. apply chunks_concat. done.
  - done.
Qed.

Lemma git_upload_ok self name path size action data w :
  faults w = [] → files w !! path = Some data →
  ∃ w',
    GitLfsGcs.upload self (JStr name) (JStr path) size action w
    = (progress_events (JStr name) 0 (chunks (Z.to_N CHUNK_SIZE) data)
         ++ [complete_upload (JStr name)],
       Return tt, w')
    ∧ blobs w' = <[join (GitLfsGcs.url self) name := data]> (blobs w)
    ∧ files w' = files w
    ∧ faults w' = [].
Proof.
  intros Hw Hfile. unfold GitLfsGcs.upload.
  set (u := join (GitLfsGcs.url self) name).
  set (cs := chunks (Z.to_N CHUNK_SIZE) data).
  set (w1 := set_staged <[u := []]> w).
  set (w2 := written (BlobSink u) (concat cs) w1).
  exists (set_blobs <[u := data]> (set_staged (delete u) w2)). split_and!; try done.
  erewrite bind_return; [reflexivity|].
  rewrite <- (app_nil_r (progress_events _ _ _)).
  eapply (with_return _ _ _ _ _ []); [| |reflexivity].
  - unfold open_path_rb, open_rb. erewrite bind_return by by apply fault_none.
    erewrite bind_return by reflexivity. by rewrite Hfile.
  - simpl. rewrite <- (app_nil_r (progress_events _ _ _)).
    eapply (with_return _ _ _ _ _ [] _ w1).
    + unfold blob_open_wb. erewrite bind_return by by apply fault_none.
      erewrite bind_return by reflexivity. reflexivity.
    + by apply transfer_loop_ok.
    + unfold blob_commit. erewrite bind_return by reflexivity.
      erewrite bind_return by reflexivity.
      erewrite bind_return by by apply fault_none.
      simpl. rewrite lookup_alter_eq, lookup_insert_eq. simpl.
      unfold w2, cs. rewrite chunks_concat by done. done.
Qed.

(** ** What a failed download leaves on disk *)

Lemma try_except_inv {A} (m : M A) h w out r w' :
  try_except m h w = (out, r, w') →
  (∃ a, m w = (out, Return a, w') ∧ r = Return a) ∨
  (∃ o1 e w1 o2, m w = (o1, Raise e, w1) ∧ h e w1 = (o2, r, w') ∧ out = o1 ++ o2).
Proof.
  unfold try_except, attempt, mbind, M_bind, mret, M_ret.
  destruct (m w) as [[o1 [a|e]] w1].
  - intros [= <- <- <-]. left. exists a. by rewrite app_nil_r.
  - destruct (h e w1) as [[o2 r2] w2] eqn:Hh. intros [= <- <- <-].
    right. by exists o1, e, w1, o2.
Qed.

(** How a [with] block ends: at the acquisition, or after the body at the
    release that goes with the way the body ended. *)
Lemma with_inv {R A} (acquire : M R) ok err (body : R → M A) w out r w' :
  with_ acquire ok err body w = (out, r, w') →
  (∃ e, acquire w = (out, Raise e, w') ∧ r = Raise e) ∨
  (∃ o1 x w1 o2 b w2 o3 c,
      acquire w = (o1, Return x, w1) ∧ body x w1 = (o2, b, w2) ∧
      (match b with Return _ => ok x | Raise _ => err x end) w2 = (o3, c, w') ∧
      out = o1 ++ o2 ++ o3 ∧
      r = match c, b with
          | Raise e, _ => Raise e
          | Return _, b => b
          end).
Proof.
  unfold with_. intros Hrun.
  apply bind_inv in Hrun as [(e & Hrun & ->)|(o1 & x & w1 & o & Ha & Hrun & ->)];
    [left; by exists e|right].
  apply bind_inv in Hrun as [(e & Hrun & _)|(o2 & b & w2 & o' & Hb & Hrun & ->)].
  { unfold attempt in Hrun. by destruct (body x w1) as [[??]?]. }
  unfold attempt in Hb. destruct (body x w1) as [[o2' b'] w2'] eqn:Hbody.
  injection Hb as <- <- <-. exists o1, x, w1, o2', b', w2'.
  destruct b' as [a|e].
  - apply bind_inv in Hrun as [(e & Hrun & ->)|(o3 & [] & w3 & o4 & Hok & Hrun & ->)].
    + by exists o', (Raise e).
    + injection Hrun as <- <- <-. exists o3, (Return tt). by rewrite app_nil_r.
  - apply bind_inv in Hrun as [(e' & Hrun & ->)|(o3 & [] & w3 & o4 & Herr & Hrun & ->)].
    + by exists o', (Raise e').
    + injection Hrun as <- <- <-. exists o3, (Return tt). by rewrite app_nil_r.
Qed.









Lemma lfs_main_handshake E first url lines w :
  init_event first = true → config_option E "lfs.url" = Some url →
  LfsGcs.main E (first :: lines) w
  = prepend [[]]
      (serve (LfsGcs.call E {| LfsGcs.url := url;
                               LfsGcs.project := config_option E "lfs-gcs.project" |})
             lines w).
Proof.
  intros Hinit Hurl. unfold LfsGcs.main.
  destruct first as [|[| | | | |d]]; try done. simpl in Hinit.
  destruct (dict_get "event" d) as [event|] eqn:Hevent; [|done].
  erewrite bind_return by reflexivity.
  erewrite bind_return by (cbn [getitem]; rewrite Hevent; reflexivity).
  erewrite bind_return by (rewrite Hinit; reflexivity).
  erewrite bind_return by (unfold LfsGcs.create; rewrite Hurl; reflexivity).
  erewrite bind_return by reflexivity.
  rewrite !prepend_nil. done.
Qed.

(** ** The sample session passes the handshake *)

Lemma handshake0 : handshake E0 init "gs://bucket/lfs".
Proof. split_and!; [|done|done]. intros [x Hx]. vm_compute in Hx. discriminate. Defined.

(** * The properties of the specification *)





(** C9. A request that is not [terminate] and has no [oid] makes
    [request.pop("oid")] raise outside the [try] statement: the loop of
    either file writes nothing for it and serves no later line, and the
    [KeyError] leaves the process, which exits with status 1 having written
    no [complete] event. *)
Theorem missing_oid_crashes E d event lines w :
  dict_get "event" d = Some event →
  eq_str event "terminate" = false →
  dict_get "oid" d = None →
  (∀ call, serve call (Json (JObj d) :: lines) w = ([], Raise (KeyError "oid"), w))
  ∧ (∀ first url, handshake E first url →
       GitLfsGcs.main E (first :: Json (JObj d) :: lines) w
       = ([[]], Raise (KeyError "oid"), w)
       ∧ LfsGcs.main E (first :: Json (JObj d) :: lines) w
         = ([[]], Raise (KeyError "oid"), w))
  ∧ exit_status (Raise (A := unit) (KeyError "oid")) = 1.
Proof.
  intros Hevent Hterm Hoid.
  assert (∀ call, serve call (Json (JObj d) :: lines) w = ([], Raise (KeyError "oid"), w))
    as Hserve.
  { intros call. cbn [serve].
    erewrite bind_return by reflexivity.
    erewrite bind_return by (cbn [pop]; unfold dict_pop; rewrite Hevent; reflexivity).
    cbn beta iota. rewrite Hterm, !prepend_nil.
    apply bind_raise. unfold dict_pop. by rewrite dict_get_del_ne, Hoid. }
  split_and!; [done| |done].
  intros first url Hhand. split.
  - by rewrite (git_main_handshake E first url), Hserve.
  - destruct Hhand as (_ & Hinit & Hurl).
    by rewrite (lfs_main_handshake E first url), Hserve.
Qed.

Lemma missing_oid_crashes_witness :
  GitLfsGcs.main E0 [init; Json (JObj [("event", JStr "download"); ("size", JInt 3)]);
                     download_abc] w0
  = ([[]], Raise (KeyError "oid"), w0).
Proof.
  pose proof (missing_oid_crashes E0
                [("event", JStr "download"); ("size", JInt 3)] (JStr "download")
                [download_abc] w0 eq_refl eq_refl eq_refl)
    as (_ & Hmain & _).
  exact (proj1 (Hmain init "gs://bucket/lfs" handshake0)).
Defined.

(** An event that is none of the three fails in the call of either
    file. *)
Lemma call_other_event E call event oid request :
  agent_call E call → other_event event →
  ∃ e,
    (∀ w, call event oid request w = ([], Raise e, w)) ∧
    (∀ name, event = JStr name → name ∉ attributes → inherited_attr E name = None →
             e = no_attribute name).
Proof.
  intros Hcall (_ & Hup & Hdown).
  assert (∀ e : exn, ∀ name,
            name ∈ attributes →
            ∀ name', JStr name = JStr name' → name' ∉ attributes →
                     inherited_attr E name' = None → e = no_attribute name')
    as Hown.
  { intros e name Hin name' Heq Hnot. by injection Heq as <-. }
  destruct event as [| | |name| |];
    try (destruct Hcall; eexists; (split; [intros w; reflexivity|by intros ? [=]])).
  simpl in Hup, Hdown.
  assert (∃ e, (∀ w, (match inherited_attr E name with
                      | Some msg => raise (TypeError msg)
                      | None => raise (A := unit) (no_attribute name)
                      end) w = ([], Raise e, w))
               ∧ (inherited_attr E name = None → e = no_attribute name))
    as (e0 & Hrun0 & He0).
  { destruct (inherited_attr E name); eexists; (split; [intros w; reflexivity|done]). }
  destruct Hcall as [client|client]; unfold GitLfsGcs.call, LfsGcs.call;
    rewrite Hup, Hdown.
  all: destruct (String.eqb_spec name "url") as [->|?];
    [eexists; split; [intros w; reflexivity|apply Hown; repeat constructor]|].
  2: destruct (String.eqb_spec name "project") as [->|?];
    [eexists; split; [intros w; reflexivity|apply Hown; repeat constructor]|].
  all: destruct (String.eqb_spec name "client") as [->|?];
    [eexists; split; [intros w; reflexivity|apply Hown; repeat constructor]|].
  all: destruct (String.eqb_spec name "create") as [->|?];
    [eexists; split; [intros w; reflexivity|apply Hown; repeat constructor]|].
  all: destruct (String.eqb_spec name "__init__") as [->|?];
    [eexists; split; [intros w; reflexivity|apply Hown; repeat constructor]|].
  all: exists e0; split; [done|]; intros ? [= <-] _ ?; auto.
Qed.

(** C10. A request with an [oid] whose event is not [terminate], [upload]
    or [download] fails inside the [try] statement of either file, at the
    lookup of the method or at the call of what was found: the loop writes
    exactly one [complete] event with [error {code: 2, message: str(e)}]
    for that [oid] and goes on.  When the name is no attribute of the
    client at all, [e] is the [AttributeError] of the lookup. *)
Theorem unknown_event_reported E call d event oid lines w :
  agent_call E call →
  dict_get "event" d = Some event →
  other_event event →
  dict_get "oid" d = Some oid →
  ∃ e,
    serve call (Json (JObj d) :: lines) w
    = prepend [[("event", JStr "complete"); ("oid", oid);
                ("error", JObj [("code", JInt 2); ("message", JStr (str e))])]]
              (serve call lines w)
    ∧ (∀ name, event = JStr name → name ∉ attributes → inherited_attr E name = None →
               e = no_attribute name).
Proof.
  intros Hcall Hevent Hother Hoid.
  destruct (call_other_event E call event oid (dict_del "oid" (dict_del "event" d))
              Hcall Hother) as (e & Hrun & Hattr).
  exists e. split; [|done].
  eapply serve_request; [done|by destruct Hother|done|].
  by rewrite (dispatch_raise _ _ _ _ _ _ _ _ (Hrun w)).
Qed.

Lemma unknown_event_reported_witness :
  ∃ e,
    serve (GitLfsGcs.call E0 client0)
          [Json (JObj [("event", JStr "verify"); ("oid", JStr "abc")]); terminate] w0
    = prepend [[("event", JStr "complete"); ("oid", JStr "abc");
                ("error", JObj [("code", JInt 2); ("message", JStr (str e))])]]
              (serve (GitLfsGcs.call E0 client0) [terminate] w0)
    ∧ (∀ name, JStr "verify" = JStr name → name ∉ attributes →
               inherited_attr E0 name = None → e = no_attribute name).
Proof.
  apply (unknown_event_reported E0 (GitLfsGcs.call E0 client0)
           [("event", JStr "verify"); ("oid", JStr "abc")] (JStr "verify") (JStr "abc")
           [terminate] w0 (git_call E0 client0) eq_refl
           (conj eq_refl (conj eq_refl eq_refl)) eq_refl).
Defined.





(** C6. When the first line is missing, is not JSON, or is anything but an
    object whose [event] is ["init"], or when no [lfs.url] is configured,
    an exception leaves [main] before anything is written: no
    acknowledgement, no [complete] event, and exit status 1. *)
Theorem bad_handshake_is_fatal E stdin w :
  stdin = [] ∨ (∃ rest, stdin = NotJson :: rest) ∨
  init_event (readline stdin) = false ∨ config_option E "lfs.url" = None →
  ∃ e,
    GitLfsGcs.main E stdin w = ([], Raise e, w)
    ∧ exit_status (Raise (A := unit) e) ≠ 0.
Proof.
  intros Hbad.
  destruct (git_main_bad_handshake E stdin w) as (e & Hmain).
  { destruct Hbad as [->|[[rest ->]|[?|?]]]; auto. }
  by exists e.
Qed.

Lemma bad_handshake_is_fatal_witness :
  ∃ e,
    GitLfsGcs.main E0 [download_abc; terminate] w0 = ([], Raise e, w0)
    ∧ exit_status (Raise (A := unit) e) ≠ 0.
Proof.
  apply (bad_handshake_is_fatal E0 [download_abc; terminate] w0).
  right. right. left. reflexivity.
Defined.

(** C5. A transfer of [N] bytes that returns has written
    [ceil(N / CHUNK_SIZE)] [progress] events (the [n] with
    [(n - 1) * CHUNK_SIZE < N <= n * CHUNK_SIZE]), none when [N = 0], and the
    last of them reports [bytesSoFar = N]; with no fault on its way it does
    return, and the download it is part of goes on to its [complete] event,
    also when there was nothing to copy. *)
Theorem progress_event_count E self name size action data dst w :
  let oid := JStr name in
  let events := progress_events oid 0 (chunks (Z.to_N CHUNK_SIZE) data) in
  let n := Z.of_nat (length events) in
  n = (len data + CHUNK_SIZE - 1) / CHUNK_SIZE
  ∧ (n - 1) * CHUNK_SIZE < len data ≤ n * CHUNK_SIZE
  ∧ (data = [] → events = [])
  ∧ Forall progressing events
  ∧ (∀ m, last events = Some m → dict_get "bytesSoFar" m = Some (JInt (len data)))
  ∧ (∀ out w', transfer oid (Stream data) dst w = (out, Return tt, w') → out = events)
  ∧ (faults w = [] → ∃ w', transfer oid (Stream data) dst w = (events, Return tt, w'))
  ∧ (faults w = [] → blobs w !! join (GitLfsGcs.url self) name = Some data →
     ∃ w', GitLfsGcs.download E self oid size action w
           = (events ++ [complete_download oid (download_path E name)], Return tt, w')).
Proof.
  intros oid events n.
  assert (n = (len data + CHUNK_SIZE - 1) / CHUNK_SIZE) as Hn.
  { unfold n, events. rewrite progress_events_length. by apply chunks_count. }
  split_and!.
  - done.
  - rewrite Hn. change CHUNK_SIZE with 4194304.
    pose proof (Z.div_mod (len data + 4194304 - 1) 4194304 ltac:(done)).
    pose proof (Z.mod_pos_bound (len data + 4194304 - 1) 4194304 ltac:(done)). lia.
  - rewrite Hn. change CHUNK_SIZE with 4194304.
    pose proof (Z.div_mod (len data + 4194304 - 1) 4194304 ltac:(done)).
    pose proof (Z.mod_pos_bound (len data + 4194304 - 1) 4194304 ltac:(done)). lia.
  - by intros ->.
  - apply progress_events_progress.
  - intros m Hm. apply progress_events_last in Hm.
    by rewrite chunks_concat in Hm.
  - intros out w'. apply transfer_loop_return.
  - intros Hw. eexists. by apply transfer_loop_ok.
  - intros Hw Hblob.
    destruct (git_download_ok E self name size action data w Hw Hblob) as (w' & ? & _).
    by exists w'.
Qed.

Lemma progress_event_count_witness :
  ∃ w',
    transfer (JStr "abc") (Stream xyz) (FileSink "/repo/lfs-download-abc.tmp") w0
    = ([[("event", JStr "progress"); ("oid", JStr "abc");
         ("bytesSoFar", JInt 3); ("bytesSinceLast", JInt 3)]],
       Return tt, w').
Proof.
  pose proof (progress_event_count E0 client0 "abc" JNull JNull xyz
                (FileSink "/repo/lfs-download-abc.tmp") w0)
    as (_ & _ & _ & _ & _ & _ & Hrun & _).
  exact (Hrun eq_refl).
Defined.

(** C2. With no fault on the way, uploading the bytes of a file under an
    [oid] and then downloading that [oid] returns twice, and the temporary
    file that the download names in its [complete] event holds exactly
    those bytes. *)
Theorem round_trip E self name path size action size' action' data w :
  faults w = [] →
  files w !! path = Some data →
  ∃ out1 w1 out2 w2,
    GitLfsGcs.upload self (JStr name) (JStr path) size action w = (out1, Return tt, w1)
    ∧ blobs w1 !! join (GitLfsGcs.url self) name = Some data
    ∧ GitLfsGcs.download E self (JStr name) size' action' w1 = (out2, Return tt, w2)
    ∧ last out2 = Some (complete_download (JStr name) (download_path E name))
    ∧ files w2 !! download_path E name = Some data.
Proof.
  intros Hw Hfile.
  destruct (git_upload_ok self name path size action data w Hw Hfile)
    as (w1 & Hup & Hblobs & _ & Hw1).
  assert (blobs w1 !! join (GitLfsGcs.url self) name = Some data) as Hblob
    by (by rewrite Hblobs, lookup_insert_eq).
  destruct (git_download_ok E self name size' action' data w1 Hw1 Hblob)
    as (w2 & Hdown & Hfile2 & _).
  eexists _, w1, _, w2. split_and!; [done|done|done| |done].
  by rewrite last_snoc.
Qed.

Lemma round_trip_witness :
  ∃ out1 w1 out2 w2,
    GitLfsGcs.upload client0 (JStr "new") (JStr "/repo/big.bin") (JInt 3) JNull w0
    = (out1, Return tt, w1)
    ∧ blobs w1 !! join (GitLfsGcs.url client0) "new" = Some xyz
    ∧ GitLfsGcs.download E0 client0 (JStr "new") (JInt 3) JNull w1 = (out2, Return tt, w2)
    ∧ last out2 = Some (complete_download (JStr "new") (download_path E0 "new"))
    ∧ files w2 !! download_path E0 "new" = Some xyz.
Proof.
  apply (round_trip E0 client0 "new" "/repo/big.bin" (JInt 3) JNull (JInt 3) JNull xyz w0);
    reflexivity.
Defined.

(** ** The download of [lfs_gcs.py] does not clean up *)

(** C4, on [lfs_gcs.py]: a download whose first read fails is answered by
    the error event, and the temporary file, which was not there before,
    is left behind, empty. *)
Theorem lfs_failed_download_leaves_file :
  files w_read_fails !! "/repo/lfs-download-abc.tmp" = None
  ∧ ∃ w,
      LfsGcs.main E0 [init; download_abc; terminate] w_read_fails
      = ([[]; complete_error (JStr "abc") read_error], Return tt, w)
      ∧ files w !! "/repo/lfs-download-abc.tmp" = Some [].
Proof. split; [done|]. eexists. split; [vm_compute; reflexivity|done]. Qed.

(** The same session on [git_lfs_gcs.py]: no file is left. *)
Example git_failed_download_leaves_nothing :
  ∃ w,
    GitLfsGcs.main E0 [init; download_abc; terminate] w_read_fails
    = ([[]; complete_error (JStr "abc") read_error], Return tt, w)
    ∧ files w !! "/repo/lfs-download-abc.tmp" = None.
Proof. eexists. split; [vm_compute; reflexivity|done]. Qed.

(** ** Which fields an operation takes *)

Lemma bad_keyword_keys fn params var_kw kw kw' :
  kw.*1 = kw'.*1 → bad_keyword fn params var_kw kw = bad_keyword fn params var_kw kw'.
Proof.
  revert kw'. induction kw as [|[k v] kw IH]; intros [|[k' v'] kw']; try done.
  simpl. intros [= <- Hkeys]. by rewrite (IH kw').
Qed.

Lemma dict_get_keys p kw kw' :
  kw.*1 = kw'.*1 → dict_get p kw = None → dict_get p kw' = None.
Proof.
  revert kw'. induction kw as [|[k v] kw IH]; intros [|[k' v'] kw']; try done.
  simpl. intros [= <- Hkeys]. destruct (String.eqb p k); [done|]. by apply IH.
Qed.

Lemma missing_keys required kw kw' :
  kw.*1 = kw'.*1 → missing required kw = missing required kw'.
Proof.
  intros Hkeys. unfold missing. apply list_filter_iff. intros p.
  split; apply dict_get_keys; done.
Qed.

Lemma bind_keywords_keys fn params required var_kw kw kw' :
  kw.*1 = kw'.*1 →
  bind_keywords fn params required var_kw kw = bind_keywords fn params required var_kw kw'.
Proof.
  intros Hkeys. unfold bind_keywords.
  by rewrite (bad_keyword_keys _ _ _ _ _ Hkeys), (missing_keys _ _ _ Hkeys).
Qed.

(** A keyword that the method does not declare stops the binding, wherever
    it stands among the others. *)
Lemma bad_keyword_undeclared fn params kw k :
  k ∈ kw.*1 → k ∉ params →
  ∃ e, bad_keyword fn params false kw = Some e ∧ exn_class e = "TypeError".
Proof.
  intros Hin Hk. induction kw as [|[k' v'] kw IH]; [by apply elem_of_nil in Hin|].
  simpl. destruct (String.eqb k' "self"); [by eexists|].
  destruct (existsb (String.eqb k') params) eqn:Hdeclared; [|by eexists].
  simpl. apply IH. apply elem_of_cons in Hin as [->|Hin]; [|done].
  exfalso. apply Hk.
  apply existsb_exists in Hdeclared as (p0 & Hp & ->%String.eqb_eq).
  by apply list_elem_of_In.
Qed.

Lemma bind_keywords_undeclared fn params required kw k :
  k ∈ kw.*1 → k ∉ params →
  ∃ e, exn_class e = "TypeError"
       ∧ ∀ w, bind_keywords fn params required false kw w = ([], Raise e, w).
Proof.
  intros Hin Hk. destruct (bad_keyword_undeclared fn params kw k Hin Hk) as (e & Hbad & He).
  exists e. split; [done|]. intros w. unfold bind_keywords. by rewrite Hbad.
Qed.

Lemma bad_keyword_var_kw fn kw :
  "self" ∉ kw.*1 → bad_keyword fn [] true kw = None.
Proof.
  induction kw as [|[k v] kw IH]; [done|]. simpl. intros Hself.
  destruct (String.eqb_spec k "self") as [->|?].
  - exfalso. apply Hself. constructor.
  - apply IH. intros ?. apply Hself. by constructor.
Qed.

(** Not even [**_] takes a keyword named [self]. *)
Lemma bind_keywords_self fn params required var_kw kw :
  "self" ∈ kw.*1 →
  ∃ e, exn_class e = "TypeError"
       ∧ ∀ w, bind_keywords fn params required var_kw kw w = ([], Raise e, w).
Proof.
  intros Hin.
  assert (∃ e, bad_keyword fn params var_kw kw = Some e ∧ exn_class e = "TypeError")
    as (e & Hbad & He).
  { induction kw as [|[k v] kw IH]; [by apply elem_of_nil in Hin|]. simpl.
    destruct (String.eqb_spec k "self") as [->|Hne]; [by eexists|].
    apply elem_of_cons in Hin as [Heq|Hin]; [by destruct Hne|].
    destruct (existsb (String.eqb k) params || var_kw); [by apply IH|by eexists]. }
  exists e. split; [done|]. intros w. unfold bind_keywords. by rewrite Hbad.
Qed.

Lemma refuses_raise call event oid request e :
  String.eqb event "terminate" = false →
  exn_class e = "TypeError" →
  (∀ w, call (JStr event) oid request w = ([], Raise e, w)) →
  refuses call event oid request.
Proof.
  intros Hevent He Hcall. exists e.
  assert (∀ w, dispatch call (JStr event) oid request w
               = ([complete_error oid e], Return tt, w)) as Hdispatch.
  { intros w. apply (dispatch_raise _ _ _ _ _ [] e w), Hcall. }
  split_and!; [done|done|].
  intros d lines w Hd Hoid <-. by eapply serve_request.
Qed.

(** C8, as amended.  The fields left in the request are the keywords of
    the call.  The download of [git_lfs_gcs.py] declares [size] and
    [action], its upload and the upload of [lfs_gcs.py] declare [path],
    [size] and [action].  A request with any other field, wherever it
    stands, is refused: the call raises a [TypeError] inside the [try]
    statement, the answer is one [complete] event with [error] code 2,
    nothing is transferred and the loop goes on.  The values of [size] and
    [action] are ignored: requests with the same field names (and, for an
    upload, the same [path]) are served alike.  Only the download of
    [lfs_gcs.py] takes any field, and it too refuses one named [self]. *)
Theorem undeclared_field_is_an_error E client client' oid request :
  (∀ k, k ∈ request.*1 → k ∉ ["size"; "action"] →
        refuses (GitLfsGcs.call E client) "download" oid request)
  ∧ (∀ k, k ∈ request.*1 → k ∉ ["path"; "size"; "action"] →
          refuses (GitLfsGcs.call E client) "upload" oid request
          ∧ refuses (LfsGcs.call E client') "upload" oid request)
  ∧ ("self" ∈ request.*1 → refuses (LfsGcs.call E client') "download" oid request)
  ∧ (∀ request' w, request'.*1 = request.*1 →
       GitLfsGcs.call E client (JStr "download") oid request' w
       = GitLfsGcs.call E client (JStr "download") oid request w)
  ∧ (∀ request' w, request'.*1 = request.*1 →
       dict_get "path" request' = dict_get "path" request →
       GitLfsGcs.call E client (JStr "upload") oid request' w
       = GitLfsGcs.call E client (JStr "upload") oid request w
       ∧ LfsGcs.call E client' (JStr "upload") oid request' w
         = LfsGcs.call E client' (JStr "upload") oid request w)
  ∧ (∀ w, "self" ∉ request.*1 →
       LfsGcs.call E client' (JStr "download") oid request w
       = LfsGcs.download E client' oid w).
Proof.
  split_and!.
  - intros k Hin Hk.
    destruct (bind_keywords_undeclared "download" ["size"; "action"] ["size"]
                request k Hin Hk) as (e & He & Hbind).
    apply (refuses_raise _ _ _ _ e); [done|done|]. intros w.
    unfold GitLfsGcs.call. cbn [String.eqb Ascii.eqb Bool.eqb].
    by apply bind_raise.
  - intros k Hin Hk. split.
    + destruct (bind_keywords_undeclared "upload" ["path"; "size"; "action"]
                  ["path"; "size"] request k Hin Hk) as (e & He & Hbind).
      apply (refuses_raise _ _ _ _ e); [done|done|]. intros w.
      unfold GitLfsGcs.call. cbn [String.eqb Ascii.eqb Bool.eqb].
      by apply bind_raise.
    + destruct (bind_keywords_undeclared "upload" ["path"; "size"; "action"]
                  ["path"; "size"; "action"] request k Hin Hk) as (e & He & Hbind).
      apply (refuses_raise _ _ _ _ e); [done|done|]. intros w.
      unfold LfsGcs.call. cbn [String.eqb Ascii.eqb Bool.eqb].
      by apply bind_raise.
  - intros Hself.
    destruct (bind_keywords_self "download" [] [] true request Hself) as (e & He & Hbind).
    apply (refuses_raise _ _ _ _ e); [done|done|]. intros w.
    unfold LfsGcs.call. cbn [String.eqb Ascii.eqb Bool.eqb].
    by apply bind_raise.
  - intros request' w Hkeys. unfold GitLfsGcs.call. cbn [String.eqb Ascii.eqb Bool.eqb].
    by rewrite (bind_keywords_keys _ _ _ _ _ _ Hkeys).
  - intros request' w Hkeys Hpath. split.
    + unfold GitLfsGcs.call, argument. cbn [String.eqb Ascii.eqb Bool.eqb].
      by rewrite (bind_keywords_keys _ _ _ _ _ _ Hkeys), Hpath.
    + unfold LfsGcs.call, argument. cbn [String.eqb Ascii.eqb Bool.eqb].
      by rewrite (bind_keywords_keys _ _ _ _ _ _ Hkeys), Hpath.
  - intros w Hself. unfold LfsGcs.call. cbn [String.eqb Ascii.eqb Bool.eqb].
    erewrite bind_return; [apply prepend_nil|].
    unfold bind_keywords. by rewrite bad_keyword_var_kw.
Qed.

Lemma undeclared_field_is_an_error_witness :
  refuses (GitLfsGcs.call E0 client0) "download" (JStr "abc")
    [("path", JStr "/repo/big.bin"); ("size", JInt 3)]
  ∧ ∃ e, exn_class e = "TypeError"
         ∧ serve (GitLfsGcs.call E0 client0) [Json (JObj download_abc_path); download_abc] w0
           = prepend [complete_error (JStr "abc") e]
               (serve (GitLfsGcs.call E0 client0) [download_abc] w0).
Proof.
  assert ("path" ∈ [("path", JStr "/repo/big.bin"); ("size", JInt 3)].*1) as Hin
    by constructor.
  assert ("path" ∉ ["size"; "action"]) as Hk.
  { intros H. apply list_elem_of_In in H. simpl in H.
    destruct H as [?|[?|[]]]; discriminate. }
  pose proof (proj1 (undeclared_field_is_an_error E0 client0
                       {| LfsGcs.url := "gs://bucket/lfs"; LfsGcs.project := None |}
                       (JStr "abc") [("path", JStr "/repo/big.bin"); ("size", JInt 3)])
                "path" Hin Hk) as Hrefused.
  split; [exact Hrefused|].
  destruct Hrefused as (e & He & _ & Hserve).
  exists e. split; [exact He|].
  apply (Hserve download_abc_path [download_abc] w0); reflexivity.
Defined.

(** C8, as stated, fails: the same download with one more field, which no
    operation needs, is answered by an error instead of the transfer. *)
Lemma extra_field_changes_the_events :
  (GitLfsGcs.main E0 [init; download_abc] w0).1.1
  = [[]; progress (JStr "abc") 3 xyz;
     complete_download (JStr "abc") "/repo/lfs-download-abc.tmp"]
  ∧ (∃ e, exn_class e = "TypeError"
          ∧ (GitLfsGcs.main E0 [init; download_abc_comment] w0).1.1
            = [[]; complete_error (JStr "abc") e])
  ∧ (GitLfsGcs.main E0 [init; download_abc_comment] w0).1.1
    ≠ (GitLfsGcs.main E0 [init; download_abc] w0).1.1.
Proof.
  split_and!; [by vm_compute| |vm_compute; discriminate].
  exists (TypeError "GCSTransport.download() got an unexpected keyword argument 'comment'").
  split; [done|by vm_compute].
Qed.

(** * Further properties of the code *)

(** ** What a transfer writes, however it ends *)

Lemma fault_inv w out r w' : fault w = (out, r, w') → out = [] ∧ store w' = store w.
Proof. unfold fault. by destruct (faults w) as [|[e|] fs]; intros [= <- <- <-]. Qed.

Lemma store_written dst data w1 w2 :
  store w1 = store w2 → store (written dst data w1) = store (written dst data w2).
Proof. unfold store. destruct dst; simpl; intros [= -> -> ->]; done. Qed.

Lemma write_inv dst chunk w out r w' :
  write dst chunk w = (out, r, w') →
  out = [] ∧
  match r with
  | Return _ => store w' = store (written dst chunk w)
  | Raise _ => store w' = store w
  end.
Proof.
  unfold write. intros Hrun.
  apply bind_inv in Hrun as [(e & (-> & ?)%fault_inv & ->)|(o1 & [] & w1 & o2 & H1 & H2 & ->)];
    [done|].
  apply fault_inv in H1 as [-> Hw1].
  destruct dst; injection H2 as <- <- <-; (split; [done|]);
    unfold store in *; simpl; injection Hw1 as -> -> ->; done.
Qed.

(** A transfer, interrupted or not, has written as many events as chunks:
    the first [k] of both. *)
Lemma transfer_loop_run oid dst total cs w out r w' :
  transfer_loop oid dst total cs w = (out, r, w') →
  ∃ k, (k ≤ length cs)%nat
       ∧ out = progress_events oid total (take k cs)
       ∧ store w' = store (written dst (concat (take k cs)) w)
       ∧ (r = Return tt → k = length cs).
Proof.
  revert total w out. induction cs as [|chunk cs IH]; intros total w out; simpl.
  - intros [-> Hw]%fault_inv. exists 0%nat. by rewrite written_nil.
  - intros Hrun.
    apply bind_inv in Hrun as [(e & (-> & ?)%fault_inv & ->)|(o1 & [] & w1 & o1' & H1 & Hrun & ->)].
    { exists 0%nat. simpl. rewrite written_nil. split_and!; [lia|done|done|done]. }
    apply fault_inv in H1 as [-> Hw1].
    apply bind_inv in Hrun as [(e & [-> Hw2]%write_inv & ->)|(o2 & [] & w2 & o2' & H2 & Hrun & ->)].
    { exists 0%nat. simpl. rewrite written_nil. split_and!; [lia|done|congruence|done]. }
    apply write_inv in H2 as [-> Hw2].
    apply bind_inv in Hrun as [(e & [=] & _)|(o3 & [] & w3 & o3' & [= <- <-] & Hrun & ->)].
    apply IH in Hrun as (k & Hk & -> & Hw' & Hr).
    exists (S k). simpl. split_and!; [lia|done| |by intros ->%Hr].
    rewrite Hw', <- written_written. apply store_written.
    rewrite Hw2. by apply store_written.
Qed.

Lemma int_field_progress oid total chunk :
  int_field "bytesSoFar" (progress oid total chunk) = total
  ∧ int_field "bytesSinceLast" (progress oid total chunk) = len chunk.
Proof. done. Qed.

Lemma progress_events_totals oid total cs i m :
  progress_events oid total cs !! i = Some m →
  int_field "bytesSoFar" m
  = total + sum (int_field "bytesSinceLast" <$> take (S i) (progress_events oid total cs)).
Proof.
  revert total i. induction cs as [|chunk cs IH]; intros total i; [done|].
  destruct i as [|i]; simpl.
  - intros [= <-]. unfold int_field. simpl. lia.
  - intros Hm. rewrite (IH _ _ Hm), (proj2 (int_field_progress _ _ _)).
    unfold fmap. lia.
Qed.

Lemma progress_events_sum oid total cs :
  sum (int_field "bytesSinceLast" <$> progress_events oid total cs) = len (concat cs).
Proof.
  revert total. induction cs as [|chunk cs IH]; intros total; [done|].
  cbn [progress_events fmap list_fmap sum foldr concat].
  fold (sum (list_fmap _ _ (int_field "bytesSinceLast")
               (progress_events oid (total + len chunk) cs))).
  change (list_fmap dict Z ?f ?l) with (f <$> l).
  rewrite IH, (proj2 (int_field_progress _ _ _)).
  unfold len. rewrite length_app. lia.
Qed.

(** X1. In every transfer, interrupted or not, each [progress] event's
    [bytesSoFar] is the sum of the [bytesSinceLast] of the events up to and
    including it; and when the transfer returns, the [bytesSinceLast] of
    all events add up to the length of the source. *)
Theorem progress_totals_add_up oid data dst w out r w' :
  transfer oid (Stream data) dst w = (out, r, w') →
  (∀ i m, out !! i = Some m →
          int_field "bytesSoFar" m = sum (int_field "bytesSinceLast" <$> take (S i) out))
  ∧ (r = Return tt → sum (int_field "bytesSinceLast" <$> out) = len data).
Proof.
  intros (k & _ & -> & _ & Hr)%transfer_loop_run. split.
  - intros i m Hm. rewrite (progress_events_totals _ _ _ _ _ Hm). lia.
  - intros ->%Hr. rewrite firstn_all, progress_events_sum. by rewrite chunks_concat.
Qed.

Lemma progress_totals_add_up_witness :
  sum (int_field "bytesSinceLast" <$>
         [progress (JStr "abc") 3 xyz]) = len xyz.
Proof.
  refine (proj2 (progress_totals_add_up (JStr "abc") xyz
                   (FileSink "/repo/lfs-download-abc.tmp") w0 _ (Return tt) _ _) eq_refl).
  vm_compute. reflexivity.
Defined.


Lemma chunks_sizes size data :
  size ≠ 0%N →
  Forall (λ c, 0 < len c ≤ Z.of_N size) (chunks size data)
  ∧ ∀ i c, chunks size data !! i = Some c → (S i < length (chunks size data))%nat →
           len c = Z.of_N size.
Proof.
  intros Hsize. remember (length data) as n eqn:Hn. revert data Hn.
  induction n as [n IH] using lt_wf_ind. intros data Hn.
  rewrite chunks_unfold. destruct (read size data) as [chunk rest] eqn:Hread.
  pose proof (read_app _ _ _ _ Hread) as Happ.
  pose proof (read_len _ _ _ _ Hread) as Hlen.
  destruct chunk as [|b chunk]; [by split|].
  assert (0 < len (b :: chunk)) as Hpos by (unfold len; simpl; lia).
  destruct (IH (length rest)) with (data := rest) as [Hall Hfull]; [|done|].
  { subst. rewrite length_app. simpl. lia. }
  split.
  - constructor; [lia|done].
  - intros [|i] c; simpl.
    + intros [= <-] Hmore.
      destruct (Z.min_spec (Z.of_N size) (len data)) as [[_ Hmin]|[_ Hmin]];
        rewrite Hmin in Hlen; [done|].
      assert (rest = []) as ->.
      { apply (f_equal len) in Happ. unfold len in *. rewrite length_app in Happ.
        destruct rest; [done|]. simpl in *. lia. }
      rewrite chunks_unfold in Hmore. simpl in Hmore. lia.
    + intros Hc Hmore. apply Hfull in Hc; [done|lia].
Qed.

Lemma progress_events_lookup oid total cs i m :
  progress_events oid total cs !! i = Some m →
  ∃ c, cs !! i = Some c ∧ int_field "bytesSinceLast" m = len c.
Proof.
  revert total i. induction cs as [|chunk cs IH]; intros total i; [done|].
  destruct i as [|i]; simpl; [intros [= <-]; by exists chunk|]. apply IH.
Qed.

(** X2. Every [progress] event of a transfer, interrupted or not, reports
    between 1 and [CHUNK_SIZE] bytes, and every event that is followed by
    another reports exactly [CHUNK_SIZE]: only the last chunk of a stream
    can be short, and no event is ever written for an empty read. *)
Theorem progress_chunk_sizes oid data dst w out r w' :
  transfer oid (Stream data) dst w = (out, r, w') →
  ∀ i m, out !! i = Some m →
    0 < int_field "bytesSinceLast" m ≤ CHUNK_SIZE
    ∧ ((S i < length out)%nat → int_field "bytesSinceLast" m = CHUNK_SIZE).
Proof.
  intros (k & Hk & -> & _ & _)%transfer_loop_run i m Hm.
  destruct (chunks_sizes (Z.to_N CHUNK_SIZE) data) as [Hall Hfull]; [done|].
  pose proof (lookup_lt_Some _ _ _ Hm) as Hi.
  rewrite progress_events_length in Hi |- *.
  apply progress_events_lookup in Hm as (c & Hc & ->).
  rewrite length_take in Hi |- *.
  rewrite lookup_take_lt in Hc by lia. split.
  - by apply (Forall_lookup_1 _ _ _ _ Hall Hc).
  - intros Hmore. apply (Hfull _ _ Hc). lia.
Qed.

Lemma progress_chunk_sizes_witness :
  0 < int_field "bytesSinceLast" (progress (JStr "abc") 3 xyz) ≤ CHUNK_SIZE.
Proof.
  assert (∃ w', transfer (JStr "abc") (Stream xyz) (FileSink "/repo/lfs-download-abc.tmp") w0
                = ([progress (JStr "abc") 3 xyz], Return tt, w')) as [w' Hrun]
    by (eexists; vm_compute; reflexivity).
  exact (proj1 (progress_chunk_sizes _ _ _ _ _ _ _ Hrun 0%nat _ eq_refl)).
Defined.

(** ** What the operations do to files and objects *)

Lemma open_wb_inv p w out r w' :
  open_wb p w = (out, r, w') →
  out = [] ∧
  match r with
  | Return dst => dst = FileSink p ∧ store w' = (<[p := []]> (files w), blobs w, staged w)
  | Raise _ => store w' = store w
  end.
Proof.
  unfold open_wb. intros Hrun.
  apply bind_inv in Hrun as [(e & (-> & ?)%fault_inv & ->)|(o1 & [] & w1 & o2 & H1 & H2 & ->)];
    [done|].
  apply fault_inv in H1 as [-> [= Hf Hb Hs]]. injection H2 as <- <- <-.
  unfold store. simpl. by rewrite Hf, Hb, Hs.
Qed.

Lemma blob_open_rb_inv uri w out r w' :
  blob_open_rb uri w = (out, r, w') →
  out = [] ∧ store w' = store w ∧
  ∀ src, r = Return src → src = from_option Stream (NoObject uri) (blobs w !! uri).
Proof.
  unfold blob_open_rb. intros Hrun.
  apply bind_inv in Hrun as [(e & (-> & ?)%fault_inv & ->)|(o1 & [] & w1 & o2 & H1 & H2 & ->)];
    [done|].
  apply fault_inv in H1 as [-> [= Hf Hb Hs]]. injection H2 as <- <- <-.
  split_and!; [done|by unfold store; rewrite Hf, Hb, Hs|]. intros src [= <-]. by rewrite Hb.
Qed.

Lemma open_path_rb_inv path w out r w' :
  open_path_rb path w = (out, r, w') →
  out = [] ∧ store w' = store w ∧
  ∀ src, r = Return src →
         ∃ p data, path = JStr p ∧ files w !! p = Some data ∧ src = Stream data.
Proof.
  destruct path as [| | |p| |]; try by intros [= <- <- <-].
  unfold open_path_rb, open_rb. intros Hrun.
  apply bind_inv in Hrun as [(e & (-> & ?)%fault_inv & ->)|(o1 & [] & w1 & o2 & H1 & H2 & ->)];
    [done|].
  apply fault_inv in H1 as [-> [= Hf Hb Hs]].
  unfold gets, mbind, M_bind in H2. rewrite Hf in H2.
  destruct (files w !! p) as [data|] eqn:Hp; injection H2 as <- <- <-;
    (split_and!; [done|by unfold store; rewrite Hf, Hb, Hs|]); [|done].
  intros src [= <-]. by exists p, data.
Qed.



Lemma transfer_no_object oid uri dst w out r w' :
  transfer oid (NoObject uri) dst w = (out, r, w') →
  out = [] ∧ store w' = store w ∧ ∃ e, r = Raise e.
Proof.
  unfold transfer. intros Hrun.
  apply bind_inv in Hrun as [(e & (-> & ?)%fault_inv & ->)|(o1 & [] & w1 & o2 & H1 & H2 & ->)];
    [by eauto|].
  apply fault_inv in H1 as [-> Hw1]. injection H2 as <- <- <-. eauto.
Qed.

(** The block that writes the temporary file, when it returns. *)
Lemma write_file_return p oid src w out w' :
  with_ (open_wb p) close_written close_quiet (λ dst, transfer oid src dst) w
  = (out, Return tt, w') →
  ∃ data,
    src = Stream data
    ∧ out = progress_events oid 0 (chunks (Z.to_N CHUNK_SIZE) data)
    ∧ store w' = (<[p := data]> (files w), blobs w, staged w).
Proof.
  intros Hrun.
  apply with_inv in Hrun
    as [(e & _ & [=])|(o1 & x & w1 & o2 & b & w2 & o3 & c & Hopen & Hbody & Hclose & -> & Hr)].
  apply open_wb_inv in Hopen as [-> [-> Hw1]].
  destruct b as [[]|e]; [|by destruct c].
  unfold close_written in Hclose. apply fault_inv in Hclose as [-> Hw'].
  destruct src as [data|uri];
    [|by apply transfer_no_object in Hbody as (_ & _ & ? & [=])].
  apply transfer_loop_run in Hbody as (k & _ & -> & Hw2 & Hk).
  rewrite (Hk eq_refl), firstn_all in *. rewrite chunks_concat in Hw2 by done.
  exists data. split_and!; [done|by rewrite app_nil_r|].
  rewrite Hw', Hw2. unfold store in *. simpl. injection Hw1 as -> -> ->.
  by rewrite alter_insert_eq.
Qed.

(** X3. Whenever a download of [git_lfs_gcs.py] returns, whatever faults
    were survived on the way, the object existed, the temporary file holds
    exactly its bytes (replacing anything that was at that path), no other
    file and no object has changed, and the events are the [progress]
    events of those bytes followed by the [complete] event that names the
    file. *)
Theorem download_return_means_file_complete E self name size action w out w' :
  GitLfsGcs.download E self (JStr name) size action w = (out, Return tt, w') →
  ∃ data,
    blobs w !! join (GitLfsGcs.url self) name = Some data
    ∧ files w' = <[download_path E name := data]> (files w)
    ∧ blobs w' = blobs w
    ∧ out = progress_events (JStr name) 0 (chunks (Z.to_N CHUNK_SIZE) data)
              ++ [complete_download (JStr name) (download_path E name)].
Proof.
  unfold GitLfsGcs.download. fold (download_path E name). intros Hrun.
  apply bind_inv in Hrun as [(? & _ & [=])|(o1 & [] & w1 & o2 & Hwith & [= <- <-] & ->)].
  apply with_inv in Hwith
    as [(e & _ & [=])|(o3 & src & w2 & o4 & b & w3 & o5 & c & Hopen & Hbody & Hclose & -> & Hr)].
  apply blob_open_rb_inv in Hopen as (-> & Hw2 & Hsrc).
  specialize (Hsrc src eq_refl).
  destruct b as [[]|e]; [|by destruct c]. injection Hclose as <- _ <-.
  apply try_except_inv in Hbody as [([] & Hbody & _)|(? & ? & ? & ? & _ & Hh & _)]; last first.
  { by apply bind_inv in Hh as [(? & _ & [=])|(? & ? & ? & ? & _ & [=] & _)]. }
  apply write_file_return in Hbody as (data & -> & -> & Hw3).
  destruct (blobs w !! join (GitLfsGcs.url self) name) as [data'|] eqn:Hblob; [|done].
  injection Hsrc as <-. exists data.
  unfold store in *. injection Hw2 as Hf Hb Hs. injection Hw3 as -> -> _.
  rewrite Hf, Hb. split_and!; try done. by rewrite !app_nil_r.
Qed.

Lemma download_return_means_file_complete_witness :
  ∃ w',
    GitLfsGcs.download E0 client0 (JStr "abc") (JInt 3) JNull
      (set_faults [None; None; None] w0)
    = ([progress (JStr "abc") 3 xyz;
        complete_download (JStr "abc") "/repo/lfs-download-abc.tmp"], Return tt, w')
    ∧ files w' = <[download_path E0 "abc" := xyz]> (files w0).
Proof.
  eexists. split; [vm_compute; reflexivity|].
  destruct (download_return_means_file_complete E0 client0 "abc" (JInt 3) JNull
              (set_faults [None; None; None] w0) _ _ ltac:(vm_compute; reflexivity))
    as (data & Hblob & Hfiles & _).
  injection Hblob as <-. exact Hfiles.
Defined.





(** The block that writes the temporary file, however it ends: it changes
    no object and no file but its own. *)
Lemma write_file_run p oid src w out r w' :
  with_ (open_wb p) close_written close_quiet (λ dst, transfer oid src dst) w
  = (out, r, w') →
  blobs w' = blobs w ∧ delete p (files w') = delete p (files w).
Proof.
  intros Hrun.
  apply with_inv in Hrun
    as [(e & Hopen & ->)|(o1 & x & w1 & o2 & b & w2 & o3 & c & Hopen & Hbody & Hclose & -> & Hr)].
  { apply open_wb_inv in Hopen as [_ [= -> -> _]]. done. }
  apply open_wb_inv in Hopen as [-> [-> [= Hf1 Hb1 Hs1]]].
  assert (store w' = store w2) as [= -> -> _].
  { destruct b; [by apply fault_inv in Hclose as [_ ?]|by injection Hclose as _ _ <-]. }
  destruct src as [data|uri].
  - apply transfer_loop_run in Hbody as (k & _ & _ & [= Hf2 Hb2 Hs2] & _).
    simpl in Hf2, Hb2. rewrite Hf2, Hb2, Hf1, Hb1.
    by rewrite delete_alter_eq, delete_insert_eq.
  - apply transfer_no_object in Hbody as (_ & [= -> -> _] & _).
    by rewrite Hf1, Hb1, delete_insert_eq.
Qed.

Lemma unlink_inv p w out r w' :
  unlink p w = (out, r, w') →
  blobs w' = blobs w ∧ delete p (files w') = delete p (files w).
Proof.
  unfold unlink, gets, modify, raise, mbind, M_bind.
  destruct (files w !! p); intros [= <- <- <-]; simpl; by rewrite ?delete_delete_eq.
Qed.

(** X5. A download of [git_lfs_gcs.py], however it ends, changes no object
    of the backend and no local file other than its own temporary file. *)
Theorem download_touches_only_its_file E self oid size action w out r w' :
  GitLfsGcs.download E self oid size action w = (out, r, w') →
  blobs w' = blobs w
  ∧ ∀ name q, oid = JStr name → q ≠ download_path E name → files w' !! q = files w !! q.
Proof.
  unfold GitLfsGcs.download. destruct oid as [| | |name| |];
    try (intros [= <- <- <-]; split; [done|by intros ? ? [=]]).
  fold (download_path E name). set (p := download_path E name). intros Hrun.
  assert (blobs w' = blobs w ∧ delete p (files w') = delete p (files w)) as [Hb Hf].
  { assert (∃ o1 r1, with_ (blob_open_rb (join (GitLfsGcs.url self) name)) close_quiet close_quiet
              (λ src, GitLfsGcs.open_auto_cleanup p (λ dst, transfer (JStr name) src dst)) w
            = (o1, r1, w')) as (o1 & r1 & Hwith).
    { apply bind_inv in Hrun as [(e & ? & _)|(? & [] & ? & ? & ? & [= <- <- <-] & _)]; eauto. }
    clear Hrun. apply with_inv in Hwith
      as [(e & Hopen & ->)|(o3 & src & w2 & o4 & b & w3 & o5 & c & Hopen & Hbody & Hclose & _)].
    { apply blob_open_rb_inv in Hopen as (_ & [= -> -> _] & _). done. }
    apply blob_open_rb_inv in Hopen as (_ & [= Hf2 Hb2 _] & _).
    assert (w3 = w') as Hw3 by (by destruct b; injection Hclose as _ _ <-).
    subst w3.
    apply try_except_inv in Hbody as [(a & Hbody & _)|(o6 & e & w4 & o7 & Hbody & Hh & _)].
    - apply write_file_run in Hbody as [-> ->]. by rewrite Hf2, Hb2.
    - apply write_file_run in Hbody as [Hb4 Hf4].
      assert (blobs w' = blobs w4 ∧ delete p (files w') = delete p (files w4)) as [-> ->].
      { apply bind_inv in Hh as [(? & Hu & _)|(? & [] & w5 & ? & Hu & Hraise & _)].
        - by apply unlink_inv in Hu.
        - injection Hraise as _ _ Hw5. subst w5. by apply unlink_inv in Hu. }
      by rewrite Hb4, Hf4, Hf2, Hb2. }
  split; [done|]. intros name' q [= <-] Hq.
  apply (f_equal (λ m, m !! q)) in Hf. by rewrite !lookup_delete_ne in Hf.
Qed.

Lemma download_touches_only_its_file_witness :
  ∃ out r w',
    GitLfsGcs.download E0 client0 (JStr "abc") (JInt 3) JNull w_read_fails = (out, r, w')
    ∧ files w' !! "/repo/big.bin" = files w_read_fails !! "/repo/big.bin".
Proof.
  eexists _, _, _. split; [vm_compute; reflexivity|].
  refine (proj2 (download_touches_only_its_file E0 client0 (JStr "abc") (JInt 3) JNull
                   w_read_fails _ _ _ ltac:(vm_compute; reflexivity))
            "abc" "/repo/big.bin" eq_refl _).
  vm_compute. discriminate.
Defined.

(** ** Downloads and uploads that fail *)







(** X8. An upload whose [path] names no file raises before a writer to
    the backend is opened, whatever the fault schedule: nothing is written,
    the files, the objects and the objects being written are as they were,
    and unless the opening itself was made to fail the exception is the
    [FileNotFoundError] of that path. *)
Theorem upload_of_missing_file self name p size action w out r w' :
  files w !! p = None →
  GitLfsGcs.upload self (JStr name) (JStr p) size action w = (out, r, w') →
  out = [] ∧ store w' = store w
  ∧ ∃ e, r = Raise e ∧ ((∀ e' fs, faults w ≠ Some e' :: fs) → e = FileNotFoundError p).
Proof.
  intros Hp Hrun. unfold GitLfsGcs.upload in Hrun.
  assert (∃ e, open_path_rb (JStr p) w = ([], Raise e, w')
               ∧ r = Raise e
               ∧ out = []
               ∧ ((∀ e' fs, faults w ≠ Some e' :: fs) → e = FileNotFoundError p))
    as (e & Hopen & -> & -> & He).
  { destruct (open_path_rb (JStr p) w) as [[o [src|e]] w1] eqn:Hopen.
    - apply open_path_rb_inv in Hopen as (_ & _ & Hsrc).
      destruct (Hsrc src eq_refl) as (? & ? & [= <-] & ? & _). congruence.
    - apply bind_inv in Hrun as [(e0 & Hwith & ->)|(? & [] & ? & ? & Hwith & _)];
        unfold with_ in Hwith; rewrite (bind_raise _ _ _ _ _ _ Hopen) in Hwith;
        [|done]. injection Hwith as <- <- <-.
      pose proof Hopen as (-> & _)%open_path_rb_inv.
      exists e. split_and!; try done. intros Hno.
      unfold open_path_rb, open_rb, fault, gets, raise, mbind, M_bind in Hopen.
      destruct (faults w) as [|[e'|] fs]; simpl in Hopen;
        [|by destruct (Hno e' fs)|]; rewrite Hp in Hopen; by injection Hopen as <-. }
  apply open_path_rb_inv in Hopen as (_ & Hw & _). eauto.
Qed.

Lemma upload_of_missing_file_witness :
  ∃ out r w',
    GitLfsGcs.upload client0 (JStr "abc") (JStr "/repo/gone.bin") (JInt 3) JNull w0
    = (out, r, w')
    ∧ out = [] ∧ store w' = store w0
    ∧ ∃ e, r = Raise e
           ∧ ((∀ e' fs, faults w0 ≠ Some e' :: fs) → e = FileNotFoundError "/repo/gone.bin").
Proof.
  eexists _, _, _. split; [vm_compute; reflexivity|].
  exact (upload_of_missing_file client0 "abc" "/repo/gone.bin" (JInt 3) JNull w0
           _ _ _ eq_refl ltac:(vm_compute; reflexivity)).
Defined.

(** ** Requests that the call refuses *)

Lemma bad_keyword_class fn params var_kw kw e :
  bad_keyword fn params var_kw kw = Some e → exn_class e = "TypeError".
Proof.
  induction kw as [|[k v] kw IH]; [done|]. simpl.
  destruct (String.eqb k "self"); [by intros [= <-]|].
  destruct (existsb (String.eqb k) params || var_kw); [done|by intros [= <-]].
Qed.

Lemma bind_keywords_inv fn params required var_kw kw w out r w' :
  bind_keywords fn params required var_kw kw w = (out, r, w') →
  out = [] ∧ w' = w ∧ ∀ e, r = Raise e → exn_class e = "TypeError".
Proof.
  unfold bind_keywords.
  destruct (bad_keyword fn params var_kw kw) as [e|] eqn:Hbad.
  - intros [= <- <- <-]. split_and!; try done. intros ? [= <-].
    by eapply bad_keyword_class.
  - destruct (missing required kw); intros [= <- <- <-]; split_and!; try done.
    by intros ? [= <-].
Qed.

Lemma bind_keywords_missing fn params required var_kw kw p w :
  p ∈ required → dict_get p kw = None →
  ∃ e, bind_keywords fn params required var_kw kw w = ([], Raise e, w)
       ∧ exn_class e = "TypeError".
Proof.
  intros Hp Hnone. unfold bind_keywords.
  destruct (bad_keyword fn params var_kw kw) as [e|] eqn:Hbad.
  - exists e. split; [done|by eapply bad_keyword_class].
  - assert (p ∈ missing required kw) as Hin by (by apply list_elem_of_filter).
    destruct (missing required kw); [by apply elem_of_nil in Hin|]. by eexists.
Qed.

(** X9. In [git_lfs_gcs.py] a download request must carry [size], which
    the operation deletes unread, and an upload request [path] and [size]:
    a request without one of them is answered by a single [complete] event
    whose error is a [TypeError], and nothing is read, written or
    transferred. *)
Theorem missing_field_is_refused E client event field oid request w :
  (event, field) ∈ [("download", "size"); ("upload", "path"); ("upload", "size")] →
  dict_get field request = None →
  ∃ e, exn_class e = "TypeError"
       ∧ dispatch (GitLfsGcs.call E client) (JStr event) oid request w
         = ([complete_error oid e], Return tt, w).
Proof.
  intros Hin Hnone.
  assert (∃ e, GitLfsGcs.call E client (JStr event) oid request w = ([], Raise e, w)
               ∧ exn_class e = "TypeError") as (e & Hcall & He).
  { apply list_elem_of_In in Hin. simpl in Hin.
    destruct Hin as [[= <- <-]|[[= <- <-]|[[= <- <-]|[]]]];
      unfold GitLfsGcs.call; cbn [String.eqb Ascii.eqb Bool.eqb].
    - destruct (bind_keywords_missing "download" ["size"; "action"] ["size"] false
                  request "size" w) as (e & Hbind & He); [repeat constructor|done|].
      exists e. split; [by apply bind_raise|done].
    - destruct (bind_keywords_missing "upload" ["path"; "size"; "action"] ["path"; "size"]
                  false request "path" w) as (e & Hbind & He); [repeat constructor|done|].
      exists e. split; [by apply bind_raise|done].
    - destruct (bind_keywords_missing "upload" ["path"; "size"; "action"] ["path"; "size"]
                  false request "size" w) as (e & Hbind & He); [repeat constructor|done|].
      exists e. split; [by apply bind_raise|done]. }
  exists e. split; [done|]. by apply (dispatch_raise _ _ _ _ _ [] e w).
Qed.

Lemma missing_field_is_refused_witness :
  ∃ e, exn_class e = "TypeError"
       ∧ dispatch (GitLfsGcs.call E0 client0) (JStr "download") (JStr "abc") [] w0
         = ([complete_error (JStr "abc") e], Return tt, w0).
Proof.
  apply (missing_field_is_refused E0 client0 "download" "size" (JStr "abc") [] w0);
    [constructor|reflexivity].
Defined.

Lemma dict_get_app p kw kw' :
  dict_get p (kw ++ kw') = match dict_get p kw with
                           | Some v => Some v
                           | None => dict_get p kw'
                           end.
Proof.
  induction kw as [|[k v] kw IH]; [done|]. simpl. by destruct (String.eqb p k).
Qed.

Lemma bad_keyword_app fn params var_kw kw kw' :
  bad_keyword fn params var_kw (kw ++ kw')
  = match bad_keyword fn params var_kw kw with
    | Some e => Some e
    | None => bad_keyword fn params var_kw kw'
    end.
Proof.
  induction kw as [|[k v] kw IH]; [done|]. simpl.
  destruct (String.eqb k "self"); [done|].
  by destruct (existsb (String.eqb k) params || var_kw).
Qed.

Lemma missing_app_other required kw k v :
  k ∉ required → missing required (kw ++ [(k, v)]) = missing required kw.
Proof.
  unfold missing. induction required as [|p required IH]; [done|]. intros Hk.
  assert (dict_get p (kw ++ [(k, v)]) = None ↔ dict_get p kw = None) as Hiff.
  { rewrite dict_get_app. destruct (dict_get p kw); [done|]. simpl.
    destruct (String.eqb_spec p k) as [->|?]; [|done].
    exfalso. apply Hk. constructor. }
  rewrite !filter_cons. rewrite IH by (intros ?; apply Hk; by constructor).
  destruct (decide (dict_get p (kw ++ [(k, v)]) = None)) as [H1|H1],
           (decide (dict_get p kw = None)) as [H2|H2]; try done.
  - by apply Hiff in H1.
  - by apply Hiff in H2.
Qed.

Lemma bind_keywords_action fn params required kw v :
  "action" ∈ params → "action" ∉ required →
  bind_keywords fn params required false (kw ++ [("action", v)])
  = bind_keywords fn params required false kw.
Proof.
  intros Hin Hnot. unfold bind_keywords. rewrite bad_keyword_app.
  assert (existsb (String.eqb "action") params = true) as Hex.
  { apply existsb_exists. exists "action". split; [by apply list_elem_of_In|done]. }
  assert (bad_keyword fn params false [("action", v)] = None) as ->.
  { cbn [bad_keyword]. rewrite Hex. done. }
  destruct (bad_keyword fn params false kw); [done|]. by rewrite missing_app_other.
Qed.

(** X10. The field [action] is optional in [git_lfs_gcs.py] and required
    in [lfs_gcs.py]: a request without it is served by the first exactly
    as the same request with any [action] added, while an upload without
    it is answered by the second with a single [complete] event whose
    error is a [TypeError]. *)
Theorem action_is_optional_in_one_file E client client' oid request v w :
  dict_get "action" request = None →
  (∀ event, event = "upload" ∨ event = "download" →
     GitLfsGcs.call E client (JStr event) oid (request ++ [("action", v)]) w
     = GitLfsGcs.call E client (JStr event) oid request w)
  ∧ ∃ e, exn_class e = "TypeError"
         ∧ dispatch (LfsGcs.call E client') (JStr "upload") oid request w
           = ([complete_error oid e], Return tt, w).
Proof.
  intros Hnone. split.
  - intros event [->| ->]; unfold GitLfsGcs.call, argument;
      cbn [String.eqb Ascii.eqb Bool.eqb].
    + rewrite bind_keywords_action; [|repeat constructor|].
      * rewrite !(dict_get_app _ request). by destruct (dict_get "path" request).
      * intros Hin. apply list_elem_of_In in Hin. simpl in Hin.
        destruct Hin as [?|[?|[]]]; discriminate.
    + rewrite bind_keywords_action; [done|repeat constructor|].
      intros Hin. apply list_elem_of_In in Hin. simpl in Hin.
      destruct Hin as [?|[]]; discriminate.
  - destruct (bind_keywords_missing "upload" ["path"; "size"; "action"]
                ["path"; "size"; "action"] false request "action" w)
      as (e & Hbind & He); [repeat constructor|done|].
    exists e. split; [done|]. apply (dispatch_raise _ _ _ _ _ [] e w).
    unfold LfsGcs.call. cbn [String.eqb Ascii.eqb Bool.eqb]. by apply bind_raise.
Qed.

Lemma action_is_optional_in_one_file_witness :
  GitLfsGcs.call E0 client0 (JStr "download") (JStr "abc")
    ([("size", JInt 3)] ++ [("action", JNull)]) w0
  = GitLfsGcs.call E0 client0 (JStr "download") (JStr "abc") [("size", JInt 3)] w0.
Proof.
  exact (proj1 (action_is_optional_in_one_file E0 client0
                  {| LfsGcs.url := "gs://bucket/lfs"; LfsGcs.project := None |}
                  (JStr "abc") [("size", JInt 3)] JNull w0 eq_refl)
           "download" (or_intror eq_refl)).
Defined.

(** X11. An [oid] that is not a string is echoed, not used: the upload or
    download of either file is answered by a single [complete] event that
    carries the [oid] as it came and a [TypeError], and nothing is opened,
    read or written. *)
Theorem non_string_oid_is_refused E call event oid request w :
  agent_call E call →
  event = JStr "upload" ∨ event = JStr "download" →
  (∀ s, oid ≠ JStr s) →
  ∃ e, exn_class e = "TypeError"
       ∧ dispatch call event oid request w = ([complete_error oid e], Return tt, w).
Proof.
  intros Hcall Hevent Hoid.
  assert (∃ e, call event oid request w = ([], Raise e, w) ∧ exn_class e = "TypeError")
    as (e & Hrun & He).
  { assert (∀ A (m : M A), (∃ e, m = raise e ∧ exn_class e = "TypeError") →
              ∀ fn params required var_kw,
                ∃ e, (bind_keywords fn params required var_kw request ≫= λ _, m) w
                     = ([], Raise e, w)
                     ∧ exn_class e = "TypeError") as Hbind.
    { intros A m (e & -> & He) fn params required var_kw.
      destruct (bind_keywords fn params required var_kw request w)
        as [[o [[]|e']] w1] eqn:Hb;
        pose proof (bind_keywords_inv _ _ _ _ _ _ _ _ _ Hb) as (-> & -> & Hcls).
      - exists e. split; [|done]. erewrite bind_return by exact Hb. reflexivity.
      - exists e'. split; [by apply bind_raise|by apply Hcls]. }
    assert (∃ e, exn_class e = "TypeError" ∧ join_type_error oid = e) as (e0 & He0 & Hj)
      by (by exists (join_type_error oid)).
    destruct Hcall as [client|client], Hevent as [->| ->];
      unfold GitLfsGcs.call, LfsGcs.call; cbn [String.eqb Ascii.eqb Bool.eqb];
      apply Hbind; exists e0; (split; [|done]);
      unfold GitLfsGcs.upload, GitLfsGcs.download, LfsGcs.upload, LfsGcs.download;
      destruct oid; try (by rewrite <- Hj); by destruct (Hoid s). }
  exists e. split; [done|]. by apply (dispatch_raise _ _ _ _ _ [] e w).
Qed.

Lemma non_string_oid_is_refused_witness :
  ∃ e, exn_class e = "TypeError"
       ∧ dispatch (GitLfsGcs.call E0 client0) (JStr "download") (JInt 7)
           [("size", JInt 3)] w0
         = ([complete_error (JInt 7) e], Return tt, w0).
Proof.
  apply (non_string_oid_is_refused E0 (GitLfsGcs.call E0 client0) (JStr "download")
           (JInt 7) [("size", JInt 3)] w0 (git_call E0 client0) (or_intror eq_refl)).
  intros s. discriminate.
Defined.

(** X12. After the handshake a line that is not JSON, or is not an object,
    or is an object without [event], is fatal: the exception is raised
    outside the [try] statement, so nothing is written for the line, no
    later line is served, and the process ends with status 1. *)
Theorem malformed_line_is_fatal call line lines w :
  line = NotJson ∨ (∃ v, line = Json v ∧ ∀ d, v = JObj d → dict_get "event" d = None) →
  ∃ e, serve call (line :: lines) w = ([], Raise e, w)
       ∧ exit_status (Raise (A := unit) e) = 1.
Proof.
  intros [->|(v & -> & Hv)]; cbn [serve].
  - eexists. split; [by apply bind_raise|done].
  - erewrite bind_return by reflexivity. rewrite prepend_nil.
    destruct v as [| | | | |d]; try (eexists; split; [by apply bind_raise|done]).
    eexists. split; [|done]. apply bind_raise. cbn [pop]. unfold dict_pop.
    by rewrite (Hv d eq_refl).
Qed.

Lemma malformed_line_is_fatal_witness :
  ∃ e, serve (GitLfsGcs.call E0 client0) [Json (JObj [("oid", JStr "abc")]); download_abc] w0
       = ([], Raise e, w0)
       ∧ exit_status (Raise (A := unit) e) = 1.
Proof.
  apply (malformed_line_is_fatal (GitLfsGcs.call E0 client0)
           (Json (JObj [("oid", JStr "abc")])) [download_abc] w0).
  right. exists (JObj [("oid", JStr "abc")]). split; [reflexivity|].
  intros d Hd. injection Hd as <-. reflexivity.
Defined.

(** ** What a session writes *)

Lemma emits_transfer_any P oid src dst :
  (∀ total chunk, P (progress oid total chunk)) → emits P (transfer oid src dst).
Proof.
  intros HP. unfold transfer. destruct src as [data|uri]; [|emits].
  generalize 0. induction (chunks (Z.to_N CHUNK_SIZE) data) as [|chunk cs IH];
    intros total; simpl; [apply emits_fault|].
  apply emits_bind; [apply emits_fault|]. intros _.
  apply emits_bind; [apply emits_write|]. intros _.
  apply emits_bind; [by apply emits_emit|]. intros _. apply IH.
Qed.

Lemma emits_upload_body_any P oid file_uri path :
  (∀ total chunk, P (progress oid total chunk)) →
  emits P
    (with_ (open_path_rb path) close_quiet close_quiet
       (λ src, with_ (blob_open_wb file_uri) blob_commit blob_abort
                 (λ dst, transfer oid src dst))).
Proof.
  intros Hprogress.
  apply emits_with; intros; [apply emits_open_path_rb|emits|emits|].
  apply emits_with; intros;
    [apply emits_blob_open_wb|apply emits_blob_commit|apply emits_blob_abort|
     by apply emits_transfer_any].
Qed.

Lemma emits_git_download_any P E self oid size action :
  (∀ total chunk, P (progress oid total chunk)) →
  (∀ path, P (complete_download oid path)) →
  emits P (GitLfsGcs.download E self oid size action).
Proof.
  intros Hprogress Hdownload.
  unfold GitLfsGcs.download. destruct oid; try apply emits_raise.
  apply emits_bind; [|intros; apply emits_emit; apply Hdownload].
  apply emits_with; intros; [apply emits_blob_open_rb|emits|emits|].
  unfold GitLfsGcs.open_auto_cleanup. apply emits_try_except.
  - apply emits_with; intros;
      [apply emits_open_wb|apply emits_fault|emits|by apply emits_transfer_any].
  - intros. apply emits_bind; [apply emits_unlink|emits].
Qed.

Lemma emits_lfs_download_any P E self oid :
  (∀ total chunk, P (progress oid total chunk)) →
  (∀ path, P (complete_download oid path)) →
  emits P (LfsGcs.download E self oid).
Proof.
  intros Hprogress Hdownload.
  unfold LfsGcs.download. destruct oid; try apply emits_raise.
  apply emits_bind; [|intros; apply emits_emit; apply Hdownload].
  apply emits_with; intros; [apply emits_blob_open_rb|emits|emits|].
  apply emits_with; intros;
    [apply emits_open_wb|apply emits_fault|emits|by apply emits_transfer_any].
Qed.

Lemma emits_git_upload_any P self oid path size action :
  (∀ total chunk, P (progress oid total chunk)) →
  P (complete_upload oid) →
  emits P (GitLfsGcs.upload self oid path size action).
Proof.
  intros Hprogress Hupload.
  unfold GitLfsGcs.upload. destruct oid; try apply emits_raise.
  apply emits_bind; [|intros; by apply emits_emit].
  by apply emits_upload_body_any.
Qed.

Lemma emits_lfs_upload_any P self oid path size action :
  (∀ total chunk, P (progress oid total chunk)) →
  P (complete_upload oid) →
  emits P (LfsGcs.upload self oid path size action).
Proof.
  intros Hprogress Hupload.
  unfold LfsGcs.upload. destruct oid; try apply emits_raise.
  apply emits_bind; [|intros; by apply emits_emit].
  by apply emits_upload_body_any.
Qed.

Ltac emits_call :=
  repeat match goal with
    | |- emits _ (raise _) => apply emits_raise
    | |- emits _ (bind_keywords _ _ _ _ _ ≫= _) =>
        apply emits_bind; [apply emits_bind_keywords|intros _]
    | |- emits _ (GitLfsGcs.download _ _ _ _ _) => by apply emits_git_download_any
    | |- emits _ (GitLfsGcs.upload _ _ _ _ _) => by apply emits_git_upload_any
    | |- emits _ (LfsGcs.download _ _ _) => by apply emits_lfs_download_any
    | |- emits _ (LfsGcs.upload _ _ _ _ _) => by apply emits_lfs_upload_any
    | |- emits _ (if ?b then _ else _) => destruct b
    | |- emits _ (match ?x with _ => _ end) => destruct x
    end.

Lemma emits_dispatch_any P oid E call event request :
  (∀ total chunk, P (progress oid total chunk)) →
  (∀ path, P (complete_download oid path)) →
  P (complete_upload oid) →
  agent_call E call → (∀ e, P (complete_error oid e)) →
  emits P (dispatch call event oid request).
Proof.
  intros Hprogress Hdownload Hupload Hcall Herror. unfold dispatch.
  apply emits_try_except.
  - destruct Hcall; [unfold GitLfsGcs.call|unfold LfsGcs.call]; emits_call.
  - intros e. by apply emits_emit.
Qed.

(** X13. Every message written for a request, by either file, is a
    [progress] or a [complete] event and carries the [oid] of the request
    exactly as it came: the agent echoes the identifier and never rewrites
    it. *)
Theorem every_message_echoes_the_oid E call event oid request w out r w' :
  agent_call E call →
  dispatch call event oid request w = (out, r, w') →
  Forall (λ m, dict_get "oid" m = Some oid ∧ transfer_event m) out.
Proof.
  intros Hcall. apply (emits_dispatch_any _ oid E); try done.
  - intros total chunk. split; [done|by left].
  - intros path. split; [done|by right].
  - split; [done|by right].
  - intros e. split; [done|by right].
Qed.

Lemma every_message_echoes_the_oid_witness :
  Forall (λ m, dict_get "oid" m = Some (JStr "abc") ∧ transfer_event m)
    [progress (JStr "abc") 3 xyz;
     complete_download (JStr "abc") "/repo/lfs-download-abc.tmp"].
Proof.
  assert (∃ w', dispatch (GitLfsGcs.call E0 client0) (JStr "download") (JStr "abc")
                  [("size", JInt 3)] w0
                = ([progress (JStr "abc") 3 xyz;
                    complete_download (JStr "abc") "/repo/lfs-download-abc.tmp"],
                   Return tt, w')) as [w' Hrun] by (eexists; vm_compute; reflexivity).
  exact (every_message_echoes_the_oid E0 _ _ _ _ _ _ _ _ (git_call E0 client0) Hrun).
Defined.

Lemma emits_serve P E call lines :
  agent_call E call →
  (∀ oid total chunk, P (progress oid total chunk)) →
  (∀ oid path, P (complete_download oid path)) →
  (∀ oid, P (complete_upload oid)) →
  (∀ oid e, P (complete_error oid e)) →
  emits P (serve call lines).
Proof.
  intros Hcall H1 H2 H3 H4. induction lines as [|line lines IH]; [apply emits_ret|].
  cbn [serve]. apply emits_bind; [unfold loads; emits|]. intros request.
  apply emits_bind; [unfold pop, dict_pop; emits|]. intros [event request'].
  destruct (eq_str event "terminate"); [apply emits_ret|].
  apply emits_bind; [unfold dict_pop; emits|]. intros [oid request''].
  apply emits_bind; [|done]. by apply (emits_dispatch_any P oid E).
Qed.

Lemma emits_nothing {A} (m : M A) w out r w' :
  emits (λ _, False) m → m w = (out, r, w') → out = [].
Proof. intros Hm Hrun. apply Hm in Hrun. destruct out; [done|by inversion Hrun]. Qed.

Lemma bind_silent_inv {A B} (m : M A) (k : A → M B) w out r w' :
  emits (λ _, False) m → (m ≫= k) w = (out, r, w') →
  out = [] ∨ ∃ a w1, k a w1 = (out, r, w').
Proof.
  intros Hm Hrun.
  apply bind_inv in Hrun as [(e & Hrun & _)|(o1 & a & w1 & o2 & H1 & H2 & ->)].
  - left. by eapply emits_nothing.
  - right. exists a, w1. by rewrite (emits_nothing _ _ _ _ _ Hm H1).
Qed.

(** X14. Whatever the input, the environment and the faults, the output of
    [main] in either file is empty or begins with the acknowledgement
    [{}], and every line after it is a [progress] or a [complete] event:
    nothing is written before the handshake is acknowledged, and the
    acknowledgement is written once. *)
Theorem output_is_ack_then_events E stdin w out r w' :
  GitLfsGcs.main E stdin w = (out, r, w') ∨ LfsGcs.main E stdin w = (out, r, w') →
  out = [] ∨ ∃ events, out = [] :: events ∧ Forall transfer_event events.
Proof.
  assert (∀ call, agent_call E call → emits transfer_event (serve call (tail stdin)))
    as Hserve.
  { intros call Hcall. apply (emits_serve _ E); try done; intros;
      first [by left|by right]. }
  assert (∀ call w1,
            agent_call E call →
            (respond [] ≫= λ _, serve call (tail stdin)) w1 = (out, r, w') →
            ∃ events, out = [] :: events ∧ Forall transfer_event events) as Hack.
  { intros call w1 Hcall Hrun.
    apply bind_inv in Hrun as [(? & [=] & _)|(o6 & [] & w6 & o6' & [= <- <-] & Hrun & ->)].
    exists o6'. split; [done|]. by eapply Hserve. }
  intros [Hrun|Hrun].
  - unfold GitLfsGcs.main, GitLfsGcs.agent in Hrun.
    apply bind_silent_inv in Hrun as [?|([] & w1 & Hrun)]; [by left| |emits].
    apply bind_silent_inv in Hrun as [?|(v & w2 & Hrun)]; [by left| |unfold loads; emits].
    apply bind_silent_inv in Hrun as [?|(ev & w3 & Hrun)]; [by left| |unfold getitem; emits].
    apply bind_silent_inv in Hrun as [?|([] & w4 & Hrun)]; [by left| |unfold assert; emits].
    apply bind_silent_inv in Hrun as [?|(c & w5 & Hrun)];
      [by left| |unfold GitLfsGcs.create; emits].
    right. eapply Hack; [apply git_call|done].
  - unfold LfsGcs.main in Hrun.
    apply bind_silent_inv in Hrun as [?|(v & w2 & Hrun)]; [by left| |unfold loads; emits].
    apply bind_silent_inv in Hrun as [?|(ev & w3 & Hrun)]; [by left| |unfold getitem; emits].
    apply bind_silent_inv in Hrun as [?|([] & w4 & Hrun)]; [by left| |unfold assert; emits].
    apply bind_silent_inv in Hrun as [?|(c & w5 & Hrun)];
      [by left| |unfold LfsGcs.create; emits].
    right. eapply Hack; [apply lfs_call|done].
Qed.

Lemma output_is_ack_then_events_witness :
  ∃ events,
    [[]; progress (JStr "abc") 3 xyz;
     complete_download (JStr "abc") "/repo/lfs-download-abc.tmp"] = [] :: events
    ∧ Forall transfer_event events.
Proof.
  assert (∃ r w', GitLfsGcs.main E0 [init; download_abc] w0
                  = ([[]; progress (JStr "abc") 3 xyz;
                      complete_download (JStr "abc") "/repo/lfs-download-abc.tmp"], r, w'))
    as (r & w' & Hrun) by (eexists _, _; vm_compute; reflexivity).
  destruct (output_is_ack_then_events E0 _ _ _ _ _ (or_introl Hrun)) as [Hnil|Hevents].
  - discriminate Hnil.
  - exact Hevents.
Defined.






(** X17. [agent] looks for [GIT_LFS_GCS_LOG] in the environment and then
    reads [LFS_GCS_LOG]: with the first set and the second not, the
    [KeyError] leaves the process before a line of input is read, whatever
    the input, and nothing is written. *)
Theorem log_variable_mismatch_is_fatal E v stdin w :
  environ E !! "GIT_LFS_GCS_LOG" = Some v →
  environ E !! "LFS_GCS_LOG" = None →
  GitLfsGcs.main E stdin w = ([], Raise (KeyError "LFS_GCS_LOG"), w)
  ∧ exit_status (Raise (A := unit) (KeyError "LFS_GCS_LOG")) = 1.
Proof.
  intros Hgit Hlfs. split; [|done]. unfold GitLfsGcs.main, GitLfsGcs.agent.
  apply bind_raise. by rewrite Hgit, Hlfs.
Qed.

Lemma log_variable_mismatch_is_fatal_witness :
  GitLfsGcs.main
    (Env {[ "GIT_LFS_GCS_LOG" := "/tmp/agent.log" ]} (git_config E0) (lfs_config E0)
         (path_absolute E0) (abspath E0) (inherited_attr E0))
    [init; download_abc; terminate] w0
  = ([], Raise (KeyError "LFS_GCS_LOG"), w0).
Proof.
  exact (proj1 (log_variable_mismatch_is_fatal
                  (Env {[ "GIT_LFS_GCS_LOG" := "/tmp/agent.log" ]} (git_config E0)
                       (lfs_config E0) (path_absolute E0) (abspath E0) (inherited_attr E0))
                  "/tmp/agent.log" [init; download_abc; terminate] w0 eq_refl eq_refl)).
Defined.

(** ** Configuration *)

(** X18. [create] reads nothing but the configuration and writes nothing.
    The client it returns has a URL that is not empty: the one [git config]
    prints if it prints one, and otherwise the one of [.lfsconfig]; it
    raises, with the message [LFS url must be set], exactly when both are
    empty. *)
Theorem create_takes_the_first_url E w out r w' :
  GitLfsGcs.create E w = (out, r, w') →
  out = [] ∧ w' = w
  ∧ match r with
    | Return client =>
        GitLfsGcs.url client ≠ ""
        ∧ (git_config E "lfs.url" ≠ "" → GitLfsGcs.url client = git_config E "lfs.url")
        ∧ (git_config E "lfs.url" = "" → GitLfsGcs.url client = lfs_config E "lfs.url")
    | Raise e =>
        e = RuntimeError "LFS url must be set"
        ∧ git_config E "lfs.url" = "" ∧ lfs_config E "lfs.url" = ""
    end.
Proof.
  unfold GitLfsGcs.create, config_option.
  destruct (String.eqb_spec (git_config E "lfs.url") "") as [Hgit|Hgit]; simpl.
  - destruct (String.eqb_spec (lfs_config E "lfs.url") "") as [Hlfs|Hlfs]; simpl;
      intros [= <- <- <-]; split_and!; done.
  - intros [= <- <- <-]. split_and!; done.
Qed.

Lemma create_takes_the_first_url_witness :
  GitLfsGcs.url client0 ≠ ""
  ∧ (git_config E0 "lfs.url" ≠ "" → GitLfsGcs.url client0 = git_config E0 "lfs.url")
  ∧ (git_config E0 "lfs.url" = "" → GitLfsGcs.url client0 = lfs_config E0 "lfs.url").
Proof.
  exact (proj2 (proj2 (create_takes_the_first_url E0 w0 [] (Return client0) w0 eq_refl))).
Defined.

(** ** Installation *)

Lemma check_calls_spec outcome cmds :
  match check_calls outcome cmds with
  | (ran, Return _) => ran = cmds ∧ Forall (λ c, outcome c = None) cmds
  | (ran, Raise e) =>
      ∃ pre c rest,
        ran = pre ++ [c] ∧ cmds = pre ++ c :: rest
        ∧ Forall (λ c, outcome c = None) pre ∧ outcome c = Some e
  end.
Proof.
  induction cmds as [|cmd cmds IH]; simpl; [done|].
  destruct (outcome cmd) as [e|] eqn:Hcmd.
  - by exists [], cmd, cmds.
  - destruct (check_calls outcome cmds) as [ran [[]|e]].
    + destruct IH as [-> Hall]. split; [done|by constructor].
    + destruct IH as (pre & c & rest & -> & -> & Hpre & Hc).
      exists (cmd :: pre), c, rest. split_and!; try done. by constructor.
Qed.

(** X19. [install] runs its three commands in order and stops at the
    first that fails: the commands run are then those before it, all
    successful, and the failing one; what it raised leaves [install] and
    [install] prints nothing.  It prints its confirmation exactly when all
    three commands succeeded. *)
Theorem install_stops_at_the_first_failure outcome argv0 is_local ran printed r :
  install outcome argv0 is_local = (ran, printed, r) →
  let cmds := install_commands argv0 is_local in
  (r = Return tt ↔ Forall (λ c, outcome c = None) cmds)
  ∧ (r = Return tt → ran = cmds ∧ printed = ["Git LFS GCS transport initialized."])
  ∧ (∀ e, r = Raise e →
          printed = []
          ∧ ∃ pre c rest,
              ran = pre ++ [c] ∧ cmds = pre ++ c :: rest
              ∧ Forall (λ c, outcome c = None) pre ∧ outcome c = Some e).
Proof.
  intros Hrun cmds. unfold install in Hrun. fold cmds in Hrun.
  pose proof (check_calls_spec outcome cmds) as Hspec.
  destruct (check_calls outcome cmds) as [ran' [[]|e]]; injection Hrun as <- <- <-.
  - destruct Hspec as [-> Hall]. split_and!; [done|done|by intros ? [=]].
  - destruct Hspec as (pre & c & rest & -> & Hcmds & Hpre & Hc). split_and!.
    + split; [done|]. intros Hall. rewrite Hcmds in Hall.
      apply Forall_app in Hall as [_ Hall]. apply Forall_cons in Hall as [Hnone _].
      congruence.
    + done.
    + intros e' [= <-]. split; [done|]. by exists pre, c, rest.
Qed.

Lemma install_stops_at_the_first_failure_witness :
  ∃ outcome ran,
    install outcome "/usr/bin/git-lfs-gcs" true
    = (ran, [], Raise (Exn "CalledProcessError" ""))
    ∧ ∃ pre c rest,
        ran = pre ++ [c] ∧ install_commands "/usr/bin/git-lfs-gcs" true = pre ++ c :: rest
        ∧ Forall (λ c, outcome c = None) pre
        ∧ outcome c = Some (Exn "CalledProcessError" "").
Proof.
  pose (outcome := λ c : command,
          if decide (c = ["git"; "config"; "lfs.standalonetransferagent"; "git-lfs-gcs"])
          then Some (Exn "CalledProcessError" "") else None).
  assert (install outcome "/usr/bin/git-lfs-gcs" true
          = ([["git"; "lfs"; "install"; "--local"];
              ["git"; "config"; "lfs.standalonetransferagent"; "git-lfs-gcs"]],
             [], Raise (Exn "CalledProcessError" ""))) as Hrun
    by (vm_compute; reflexivity).
  exists outcome. eexists. split; [exact Hrun|].
  exact (proj2 (proj2 (proj2 (install_stops_at_the_first_failure outcome _ _ _ _ _ Hrun))
                  (Exn "CalledProcessError" "") eq_refl)).
Defined.

(** ** The two downloads *)

Lemma with_return_iff {R A} (acquire : M R) ok err (body body' : R → M A) w out a w' :
  (∀ x w1 o w2, body x w1 = (o, Return a, w2) ↔ body' x w1 = (o, Return a, w2)) →
  with_ acquire ok err body w = (out, Return a, w') →
  with_ acquire ok err body' w = (out, Return a, w').
Proof.
  intros Hbody Hrun.
  apply with_inv in Hrun
    as [(e & _ & [=])|(o1 & x & w1 & o2 & b & w2 & o3 & c & Hacq & Hb & Hc & -> & Hr)].
  destruct c as [[]|e]; [|done]. simpl in Hr. subst b.
  apply Hbody in Hb. by eapply with_return.
Qed.

Lemma open_auto_cleanup_return {A} p (body : sink → M A) w out a w' :
  GitLfsGcs.open_auto_cleanup p body w = (out, Return a, w') ↔
  with_ (open_wb p) close_written close_quiet body w = (out, Return a, w').
Proof.
  unfold GitLfsGcs.open_auto_cleanup. split.
  - intros [(a' & Hrun & [= <-])|(? & e & ? & ? & _ & Hh & _)]%try_except_inv; [done|].
    by apply bind_inv in Hh as [(? & _ & [=])|(? & ? & ? & ? & _ & [=] & _)].
  - apply try_except_return.
Qed.

(** X20. The cleanup of [git_lfs_gcs.py] changes nothing in a download
    that goes through: where [Path.absolute] and [os.path.abspath] agree
    on the name of this object's temporary file (they differ on names
    with [..] in them) and the URL is the same, a download of one returns
    exactly when the download of the other does, with the same events and
    the same files and objects afterwards.  The two differ only in what a
    failed download leaves behind. *)
Theorem downloads_agree_when_they_return E self self' oid size action w out w' :
  GitLfsGcs.url self = LfsGcs.url self' →
  (∀ name, oid = JStr name →
           path_absolute E ("lfs-download-" +:+ name +:+ ".tmp")
           = abspath E ("lfs-download-" +:+ name +:+ ".tmp")) →
  GitLfsGcs.download E self oid size action w = (out, Return tt, w') ↔
  LfsGcs.download E self' oid w = (out, Return tt, w').
Proof.
  intros Hurl Hpath. unfold GitLfsGcs.download, LfsGcs.download.
  destruct oid as [| | |name| |]; try done.
  rewrite Hurl, (Hpath name eq_refl).
  set (uri := join (LfsGcs.url self') name).
  set (p := abspath E ("lfs-download-" +:+ name +:+ ".tmp")).
  assert (∀ (body body' : reader → M unit),
            (∀ x w1 o w2, body x w1 = (o, Return tt, w2) ↔ body' x w1 = (o, Return tt, w2)) →
            (with_ (blob_open_rb uri) close_quiet close_quiet body
               ≫= λ _, emit [("event", JStr "complete"); ("oid", JStr name);
                             ("path", JStr p)]) w = (out, Return tt, w') →
            (with_ (blob_open_rb uri) close_quiet close_quiet body'
               ≫= λ _, emit [("event", JStr "complete"); ("oid", JStr name);
                             ("path", JStr p)]) w = (out, Return tt, w')) as Hstep.
  { intros body body' Hbody Hrun.
    apply bind_inv in Hrun as [(? & _ & [=])|(o1 & [] & w1 & o2 & Hwith & Hemit & ->)].
    apply (with_return_iff _ _ _ _ body' _ _ _ _ Hbody) in Hwith.
    erewrite bind_return by exact Hwith. by rewrite Hemit. }
  split; apply Hstep; intros x w1 o w2.
  - apply open_auto_cleanup_return.
  - symmetry. apply open_auto_cleanup_return.
Qed.

Lemma downloads_agree_when_they_return_witness :
  ∃ out w',
    GitLfsGcs.download E0 client0 (JStr "abc") (JInt 3) JNull w0 = (out, Return tt, w')
    ∧ LfsGcs.download E0 {| LfsGcs.url := "gs://bucket/lfs"; LfsGcs.project := None |}
        (JStr "abc") w0 = (out, Return tt, w').
Proof.
  eexists _, _. split; [vm_compute; reflexivity|].
  apply (downloads_agree_when_they_return E0 client0
           {| LfsGcs.url := "gs://bucket/lfs"; LfsGcs.project := None |}
           (JStr "abc") (JInt 3) JNull w0);
    [reflexivity|intros name [= <-]; reflexivity|].
  vm_compute. reflexivity.
Defined.
